(** * A shallow embedding of [mingpt-demo/play_char.ipynb]

    The notebook defines one class, [CharDataset], and drives the minGPT
    model, trainer and sampler with it.  This development embeds the class
    (constructor, [__len__], [__getitem__]) together with the encoding and
    decoding expressions of the sampling cell, and proves the properties
    the specification states about them.  The model and the sampler are
    imported by the notebook from the [mingpt] package; they are described
    here by the architecture and the algorithm the specification gives for
    them. *)

From Stdlib Require Import ZArith NArith String Ascii Reals.
From stdpp Require Import sorting numbers list gmap.

Local Open Scope Z_scope.

(** ** Python values *)

(** A Python [str] is a sequence of Unicode code points; a character (a
    [str] of length one) is modelled by its code point, so that the order
    used by [sorted] is the order of [N]. *)
Definition char : Type := N.
Definition str : Type := list char.

(** String literals of the notebook, read as sequences of code points. *)
Definition str_of (s : string) : str :=
  map N_of_ascii (list_ascii_of_string s).

(** [len(l)]: Python integers are unbounded, hence [Z]. *)
Definition len {A} (l : list A) : Z := Z.of_nat (length l).

(** The exceptions the embedded code can raise: a dictionary subscript
    whose key is absent. *)
Inductive key : Type :=
  | KChar (c : char)
  | KInt (i : Z).

Inductive exn : Type :=
  | KeyError (k : key).

(** *** Slicing

    [l[lo:hi]] with step one.  A bound that is absent takes its default; a
    negative bound counts from the end; every bound is clamped to
    [0 .. len(l)].  No slice ever raises. *)
Definition slice_bound (n : Z) (default : Z) (o : option Z) : Z :=
  match o with
  | None => default
  | Some i => if i <? 0 then Z.max (i + n) 0 else Z.min i n
  end.

Definition slice {A} (l : list A) (lo hi : option Z) : list A :=
  let n := len l in
  let start := slice_bound n 0 lo in
  let stop := slice_bound n n hi in
  take (Z.to_nat (stop - start)) (drop (Z.to_nat start) l).

(** *** [set], [sorted], [enumerate] and dictionaries *)

(** [set(data)]. *)
Definition py_set (data : str) : gset char := list_to_set data.

(** [sorted(list(s))]: [list] enumerates the set in some order, [sorted]
    puts the result in ascending order of code points. *)
Definition sorted (l : list char) : list char := merge_sort N.le l.

(** [enumerate(l)], counting from [i]. *)
Fixpoint enumerate_from {A} (i : Z) (l : list A) : list (Z * A) :=
  match l with
  | [] => []
  | x :: l' => (i, x) :: enumerate_from (i + 1) l'
  end.

Definition enumerate {A} (l : list A) : list (Z * A) := enumerate_from 0 l.

(** A dictionary comprehension [{ k(it) : v(it) for it in items }] inserts
    its items in iteration order; a later item overwrites an earlier one
    on the same key. *)
Definition dict_from `{Countable K} {V I} (k : I → K) (v : I → V)
    (d : gmap K V) (items : list I) : gmap K V :=
  foldl (λ d it, <[k it := v it]> d) d items.

Definition dict_of `{Countable K} {V I} (k : I → K) (v : I → V)
    (items : list I) : gmap K V :=
  dict_from k v ∅ items.

(** [torch.tensor(l, dtype=torch.long)] of a list of integers: the same
    integers, as a one-dimensional tensor.  The tokens stored here are
    vocabulary indices, far inside the 64-bit range. *)
Definition tensor_long (l : list Z) : list Z := l.

(** ** Computations on an object

    A method reads and may write the fields of [self] and may raise: a
    computation maps the state of the object to an outcome and the state
    it leaves behind. *)
Definition Py (S A : Type) : Type := S → (exn + A) * S.

Definition ret {S A} (a : A) : Py S A := λ s, (inr a, s).

Definition raise {S A} (e : exn) : Py S A := λ s, (inl e, s).

Definition bind {S A B} (m : Py S A) (k : A → Py S B) : Py S B :=
  λ s, match m s with
       | (inr a, s') => k a s'
       | (inl e, s') => (inl e, s')
       end.

(** Reading an attribute of [self]. *)
Definition attr {S A} (field : S → A) : Py S A := λ s, (inr (field s), s).

Notation "'let*' x ':=' m 'in' k" := (bind m (λ x, k))
  (at level 10, x name, m at level 100, k at level 200).

(** [d[k]] on a dictionary. *)
Definition subscript `{Countable K} {S V} (wrap : K → key)
    (d : gmap K V) (k : K) : Py S V :=
  match d !! k with
  | Some v => ret v
  | None => raise (KeyError (wrap k))
  end.

(** A list comprehension [[f(s) for s in l]]: elements are handled from
    left to right and the first exception ends the comprehension. *)
Fixpoint comprehension {S A B} (f : A → Py S B) (l : list A) : Py S (list B) :=
  match l with
  | [] => ret []
  | a :: l' =>
      let* b := f a in
      let* bs := comprehension f l' in
      ret (b :: bs)
  end.

(** ** The class [CharDataset] *)

Module CharDataset.

(** The attributes assigned by the constructor. *)
Record t : Type := Build {
  stoi : gmap char Z;
  itos : gmap Z char;
  block_size : Z;
  vocab_size : Z;
  data : str
}.

(** [chars = sorted(list(set(data)))]. *)
Definition chars (data : str) : list char :=
  sorted (elements (py_set data)).

(** [__init__(self, data, block_size)].  The line it prints is not part
    of the object. *)
Definition __init__ (data : str) (block_size : Z) : t :=
  let chars := chars data in
  let vocab_size := len chars in
  {| stoi := dict_of (* ch : i *) snd fst (enumerate chars);
     itos := dict_of (* i : ch *) fst snd (enumerate chars);
     block_size := block_size;
     vocab_size := vocab_size;
     data := data |}.

(** [__len__(self)]. *)
Definition __len__ : Py t Z :=
  let* d := attr data in
  let* b := attr block_size in
  ret (len d - b).

(** [__getitem__(self, idx)]. *)
Definition __getitem__ (idx : Z) : Py t (list Z * list Z) :=
  let* d := attr data in
  let* b := attr block_size in
  let chunk := slice d (Some idx) (Some (idx + b + 1)) in
  let* dix := comprehension (λ s, let* m := attr stoi in subscript KChar m s) chunk in
  let x := tensor_long (slice dix None (Some (-1))) in
  let y := tensor_long (slice dix (Some 1) None) in
  ret (x, y).

(** The sampling cell: [[train_dataset.stoi[s] for s in context]] and
    [[train_dataset.itos[int(i)] for i in y]]. *)
Definition encode (context : str) : Py t (list Z) :=
  comprehension (λ s, let* m := attr stoi in subscript KChar m s) context.

Definition decode (y : list Z) : Py t str :=
  comprehension (λ i, let* m := attr itos in subscript KInt m i) y.

End CharDataset.

(** Outcome and final state of a computation run on an object. *)
Definition outcome {S A} (m : Py S A) (s : S) : exn + A := (m s).1.
Definition final {S A} (m : Py S A) (s : S) : S := (m s).2.

(** [toks] is the encoding of [chunk] under the vocabulary of [ds]: token
    by token, [toks[k] = ds.stoi[chunk[k]]]. *)
Definition encoding_of (ds : CharDataset.t) (chunk : str) (toks : list Z) : Prop :=
  Forall2 (λ c tok, CharDataset.stoi ds !! c = Some tok) chunk toks.

(** The number of distinct characters of a text. *)
Definition distinct (corpus : str) : nat := length (remove_dups corpus).

(** [tok] is a token of the vocabulary of [ds]: an index in
    [0 .. vocab_size - 1]. *)
Definition in_vocab (ds : CharDataset.t) (tok : Z) : Prop :=
  0 ≤ tok < CharDataset.vocab_size ds.

(** [s] is the decoding of [toks] under the vocabulary of [ds]: character
    by character, [s[k] = ds.itos[toks[k]]]. *)
Definition decoding_of (ds : CharDataset.t) (toks : list Z) (s : str) : Prop :=
  Forall2 (λ tok c, CharDataset.itos ds !! tok = Some c) toks s.

(** ** The trainer cell

    [final_tokens=2*len(train_dataset)*block_size] applies the built-in
    [len] to the dataset. *)

(** What the built-in [len] can raise besides what [__len__] raises. *)
Inductive len_exn : Type :=
  | Raised (e : exn)
  | ValueError
  | OverflowError.

(** The built-in [len(obj)]: it calls [__len__], refuses a negative result
    with [ValueError] and a result above [sys.maxsize] with
    [OverflowError].  [maxsize] is the value of [sys.maxsize], which
    depends on the platform. *)
Definition builtin_len {S} (maxsize : Z) (__len__ : Py S Z) (s : S)
    : (len_exn + Z) * S :=
  match __len__ s with
  | (inl e, s') => (inl (Raised e), s')
  | (inr n, s') =>
      if n <? 0 then (inl ValueError, s')
      else if maxsize <? n then (inl OverflowError, s')
      else (inr n, s')
  end.

(** [2*len(train_dataset)*block_size], with
    [train_dataset = CharDataset(text, block_size)]. *)
Definition final_tokens (maxsize : Z) (text : str) (block_size : Z) : len_exn + Z :=
  match builtin_len maxsize CharDataset.__len__ (CharDataset.__init__ text block_size) with
  | (inl e, _) => inl e
  | (inr n, _) => inr (2 * n * block_size)
  end.

(** ** The model [GPT]

    The notebook only constructs the model ([GPT(mconf)]) and hands it to
    the trainer and the sampler; the class itself lives in [mingpt.model]. *)

Module GPT.

(** Modelled from the spec: the tensors of [mingpt.model], which is not
    among the sources.  Vectors over the real numbers; reals stand for the
    floating-point numbers of the tensor library. *)
Definition vec : Type := list R.

(** Modelled from the spec: the sum of a list of numbers, as the tensor
    library of the absent [mingpt.model] computes it. *)
Definition Rsum (l : list R) : R := foldr Rplus 0%R l.

(** Modelled from the spec: the inner product of two vectors (absent
    [mingpt.model]). *)
Definition dot (u v : vec) : R := Rsum (zip_with Rmult u v).

(** Modelled from the spec: the residual addition of two vectors (absent
    [mingpt.model]). *)
Definition vadd (u v : vec) : vec := zip_with Rplus u v.

(** Modelled from the spec: the masking step of the attention of the
    absent [mingpt.model].  A score is a real number or minus infinity,
    the value the mask writes; [None] is minus infinity. *)
Definition masked_fill (keep : bool) (x : R) : option R :=
  if keep then Some x else None.

(** Modelled from the spec: the exponential of a score (absent
    [mingpt.model]); minus infinity gives zero. *)
Definition exp_inf (o : option R) : R :=
  match o with
  | Some x => exp x
  | None => 0%R
  end.

(** Modelled from the spec: the normalized exponential of a row of
    scores (absent [mingpt.model]). *)
Definition softmax (row : list (option R)) : list R :=
  let z := Rsum (exp_inf <$> row) in
  (λ o, (exp_inf o / z)%R) <$> row.

(** Modelled from the spec: one attention head of the absent class
    [CausalSelfAttention] of [mingpt.model]: position-wise query, key and
    value projections, the scaling of the scores and the width of the
    output. *)
Record head : Type := Head {
  query : vec → vec;
  key : vec → vec;
  value : vec → vec;
  scale : R;
  head_size : nat
}.

(** Modelled from the spec: the triangular mask of the absent
    [mingpt.model]: position [t] may attend to position [s] when [s] is
    [t] itself or earlier. *)
Definition mask (t s : nat) : bool := (s <=? t)%nat.

(** Modelled from the spec: the output of a head of the absent
    [mingpt.model] at position [t], whose vector is [x], over the sequence
    [xs]: the scores of [x] against every position are masked, turned into
    weights by the normalized exponential, and the values of all positions
    are summed with these weights, coordinate by coordinate. *)
Definition attend (h : head) (xs : list vec) (t : nat) (x : vec) : vec :=
  let q := query h x in
  let row := imap (λ s xs_s, masked_fill (mask t s) (dot q (key h xs_s) * scale h)%R) xs in
  let att := softmax row in
  (λ j, Rsum (zip_with (λ w xs_s, (w * nth j (value h xs_s) 0)%R) att xs))
    <$> seq 0 (head_size h).

(** Modelled from the spec: one block of the absent [mingpt.model].
    Layer normalization, the feed-forward network and the output
    projection act on each position separately; their weights are part of
    the functions. *)
Record block : Type := Block {
  ln1 : vec → vec;
  heads : list head;
  proj : vec → vec;
  ln2 : vec → vec;
  mlp : vec → vec
}.

(** Modelled from the spec: multi-head causal self-attention of the
    absent [mingpt.model]: the outputs of the heads are concatenated and
    projected. *)
Definition attention (b : block) (xs : list vec) : list vec :=
  imap (λ t x, proj b (concat ((λ h, attend h xs t x) <$> heads b))) xs.

(** Modelled from the spec: the forward pass of a block of the absent
    [mingpt.model]: layer normalization, attention, residual addition;
    layer normalization, feed-forward network, residual addition. *)
Definition block_forward (b : block) (xs : list vec) : list vec :=
  let xs1 := zip_with vadd xs (attention b (ln1 b <$> xs)) in
  zip_with vadd xs1 ((λ x, mlp b (ln2 b x)) <$> xs1).

(** Modelled from the spec: the absent class [GPT] of [mingpt.model].
    Token and positional embedding, the stacked blocks, the final layer
    normalization and the linear projection to logits; [block_size] is the
    maximum context length. *)
Record t : Type := Build {
  block_size : nat;
  tok_emb : Z → vec;
  pos_emb : nat → vec;
  blocks : list block;
  ln_f : vec → vec;
  lm_head : vec → vec
}.

(** Modelled from the spec: the forward pass of the absent class [GPT] on
    a sequence of token indices, without dropout: one vector of logits per
    position.  A sequence longer than the context length is refused. *)
Definition forward (m : t) (idx : list Z) : option (list vec) :=
  if (length idx <=? block_size m)%nat then
    let xs := imap (λ p tok, vadd (tok_emb m tok) (pos_emb m p)) idx in
    let xs := foldl (λ xs b, block_forward b xs) xs (blocks m) in
    Some ((λ x, lm_head m (ln_f m x)) <$> xs)
  else None.

End GPT.

(** Two sequences agree up to position [t]: they have the same length and
    the same elements at the positions [0 .. t]. *)
Definition agree_upto {A} (t : nat) (xs ys : list A) : Prop :=
  length xs = length ys ∧ ∀ p, (p ≤ t)%nat → xs !! p = ys !! p.

(** A small instance of the model, on which the statements about the
    forward pass can be exercised: context length four, one block with one
    head, embeddings of width one, every position-wise map the identity. *)
Definition tiny_head : GPT.head :=
  {| GPT.query := λ v, v; GPT.key := λ v, v; GPT.value := λ v, v;
     GPT.scale := 1%R; GPT.head_size := 1 |}.

Definition tiny_block : GPT.block :=
  {| GPT.ln1 := λ v, v; GPT.heads := [tiny_head]; GPT.proj := λ v, v;
     GPT.ln2 := λ v, v; GPT.mlp := λ v, v |}.

Definition tiny_gpt : GPT.t :=
  {| GPT.block_size := 4;
     GPT.tok_emb := λ tok, [IZR tok];
     GPT.pos_emb := λ p, [INR p];
     GPT.blocks := [tiny_block];
     GPT.ln_f := λ v, v;
     GPT.lm_head := λ v, v |}.

(** ** The sampler [sample]

    The notebook calls
    [sample(model, x, 2000, temperature=1.0, sample=True, top_k=10)]; the
    function itself lives in [mingpt.utils]. *)

Module Sampler.

(** Modelled from the spec: what the absent [sample] of [mingpt.utils]
    relies on: the operations of the tensor library and the model it is
    given.  [final_logits m x] is the forward pass of the model on [x]
    followed by the selection of the logits at the final position. *)
Class Substrate : Type := {
  logits : Type;
  probs : Type;
  scalar : Type;
  rng : Type;
  model : Type;
  get_block_size : model → nat;
  final_logits : model → list Z → logits;
  div_scalar : logits → scalar → logits;
  top_k_logits : logits → nat → logits;
  softmax : logits → probs;
  multinomial : probs → rng → Z * rng;
  argmax : probs → Z
}.

Section sampler.
Context `{Substrate}.

(** Modelled from the spec: the keyword arguments of the absent [sample]
    of [mingpt.utils]. *)
Record options : Type := Options {
  temperature : option scalar;
  do_sample : bool;
  top_k : option nat
}.

(** Modelled from the spec: one step of the absent [sample] of
    [mingpt.utils]: the forward pass on the current sequence, truncated to
    its last [block_size] tokens if it is longer; the logits at the final
    position, scaled by the temperature and restricted to the top [k] when
    asked; the normalized exponential; a token drawn from the distribution
    or its arg-max; the token is appended to the sequence. *)
Definition step (m : model) (o : options) (st : list Z * rng) : list Z * rng :=
  let '(x, g) := st in
  let block_size := get_block_size m in
  let x_cond :=
    if (length x <=? block_size)%nat then x
    else drop (length x - block_size) x in
  let l := final_logits m x_cond in
  let l := match temperature o with Some T => div_scalar l T | None => l end in
  let l := match top_k o with Some k => top_k_logits l k | None => l end in
  let p := softmax l in
  let '(ix, g') := if do_sample o then multinomial p g else (argmax p, g) in
  (x ++ [ix], g').

(** Modelled from the spec: the decoding loop of the absent [sample] of
    [mingpt.utils], [steps] steps from the state [st]; there is no
    stopping condition other than the count. *)
Fixpoint sample_from (m : model) (o : options) (steps : nat)
    (st : list Z * rng) : list Z * rng :=
  match steps with
  | O => st
  | S steps' => sample_from m o steps' (step m o st)
  end.

(** Modelled from the spec: the absent [sample] of [mingpt.utils], from
    the prompt [x] and the state [g] of the random generator. *)
Definition sample (m : model) (x : list Z) (steps : nat) (o : options)
    (g : rng) : list Z * rng :=
  sample_from m o steps (x, g).

End sampler.

End Sampler.

(** A small instance of what the sampler needs, on which it can be run:
    logits and probabilities are single integers, the model answers with
    the length of the sequence it is shown, and both decoding rules pick
    that integer. *)
Definition counting : Sampler.Substrate :=
  {| Sampler.logits := Z;
     Sampler.probs := Z;
     Sampler.scalar := Z;
     Sampler.rng := unit;
     Sampler.model := nat;
     Sampler.get_block_size := λ m, m;
     Sampler.final_logits := λ _ x, len x;
     Sampler.div_scalar := λ l _, l;
     Sampler.top_k_logits := λ l _, l;
     Sampler.softmax := λ l, l;
     Sampler.multinomial := λ p g, (p, g);
     Sampler.argmax := λ p, p |}.

(** * Properties *)

(** ** Slices *)

Section slices.
Context {A : Type}.
Implicit Types l : list A.

Lemma len_nonneg l : 0 ≤ len l.
Proof. unfold len. lia. Qed.

(** Clamped bounds lie in [0 .. n]. *)
Lemma slice_bound_range (n d : Z) (o : option Z) :
  0 ≤ d ≤ n → 0 ≤ slice_bound n d o ≤ n.
Proof.
  intros Hd. destruct o as [i|]; simpl; [|done].
  destruct (Z.ltb_spec i 0); lia.
Qed.

(** [l[:-1]] drops the last element, if there is one. *)
Lemma slice_init l : slice l None (Some (-1)) = take (length l - 1) l.
Proof.
  unfold slice, slice_bound, len. simpl.
  rewrite Z.sub_0_r, drop_0. f_equal. lia.
Qed.

(** [l[1:]] drops the first element, if there is one. *)
Lemma slice_tail l : slice l (Some 1) None = drop 1 l.
Proof.
  unfold slice, slice_bound, len. simpl.
  destruct l as [|a l]; [done|].
  replace (Z.to_nat (1 `min` Z.of_nat (length (a :: l)))) with 1%nat
    by (simpl; lia).
  apply take_ge. rewrite length_drop. simpl. lia.
Qed.

(** A slice between two non-negative bounds. *)
Lemma slice_nonneg l (i j : Z) :
  0 ≤ i → 0 ≤ j →
  slice l (Some i) (Some j)
  = take (Z.to_nat (Z.min j (len l)) - Z.to_nat (Z.min i (len l)))
         (drop (Z.to_nat (Z.min i (len l))) l).
Proof.
  intros Hi Hj. unfold slice, slice_bound.
  destruct (Z.ltb_spec i 0); [lia|]. destruct (Z.ltb_spec j 0); [lia|].
  f_equal. pose proof (len_nonneg l). lia.
Qed.

(** A full window: the slice lies inside the list. *)
Lemma slice_inside l (i n : Z) :
  0 ≤ i → 0 ≤ n → i + n ≤ len l →
  slice l (Some i) (Some (i + n)) = take (Z.to_nat n) (drop (Z.to_nat i) l).
Proof.
  intros Hi Hn Hle. rewrite slice_nonneg by lia.
  rewrite !Z.min_l by lia. f_equal. lia.
Qed.

Lemma length_slice_inside l (i n : Z) :
  0 ≤ i → 0 ≤ n → i + n ≤ len l →
  length (slice l (Some i) (Some (i + n))) = Z.to_nat n.
Proof.
  intros Hi Hn Hle. rewrite slice_inside by done.
  rewrite length_take, length_drop. unfold len in Hle. lia.
Qed.

Lemma lookup_slice_inside l (i n : Z) (k : nat) :
  0 ≤ i → 0 ≤ n → i + n ≤ len l → (k < Z.to_nat n)%nat →
  slice l (Some i) (Some (i + n)) !! k = l !! (Z.to_nat i + k)%nat.
Proof.
  intros Hi Hn Hle Hk. rewrite slice_inside by done.
  rewrite lookup_take_lt by done. apply lookup_drop.
Qed.

(** Every slice is a contiguous part of the list: its elements are
    elements of the list. *)
Lemma slice_subseteq l lo hi : slice l lo hi ⊆ l.
Proof.
  unfold slice. intros a Ha.
  apply (subseteq_drop (Z.to_nat (slice_bound (len l) 0 lo))).
  by eapply subseteq_take.
Qed.

(** The length of any slice, from its clamped bounds. *)
Lemma length_slice l lo hi :
  Z.of_nat (length (slice l lo hi))
  = Z.max 0 (slice_bound (len l) (len l) hi - slice_bound (len l) 0 lo)
      `min` Z.max 0 (len l - slice_bound (len l) 0 lo).
Proof.
  pose proof (len_nonneg l) as Hn.
  pose proof (slice_bound_range (len l) 0 lo ltac:(lia)) as Hlo.
  unfold slice. rewrite length_take, length_drop.
  unfold len in *. lia.
Qed.

End slices.

(** ** Dictionaries built from an enumeration *)

Section dictionaries.
Context {A : Type} `{Countable A}.
Implicit Types (l : list A) (n i : Z) (j : nat).

Lemma length_enumerate_from l n : length (enumerate_from n l) = length l.
Proof. revert n. induction l as [|a l IH]; intros n; simpl; [done|]. by rewrite IH. Qed.

(** [{ x : i for i, x in enumerate(l) }]: a key that is not in [l] is
    left as it was. *)
Lemma lookup_dict_value_notin l n (d : gmap A Z) (a : A) :
  a ∉ l → dict_from snd fst d (enumerate_from n l) !! a = d !! a.
Proof.
  revert n d. induction l as [|b l IH]; intros n d Hin; simpl; [done|].
  apply not_elem_of_cons in Hin as [Hne Hin].
  unfold dict_from in *. simpl. rewrite IH by done.
  by apply lookup_insert_ne.
Qed.

(** When [l] has no duplicates, the key at position [j] is mapped to its
    index. *)
Lemma lookup_dict_value l n (d : gmap A Z) j (a : A) :
  NoDup l → l !! j = Some a →
  dict_from snd fst d (enumerate_from n l) !! a = Some (n + Z.of_nat j).
Proof.
  revert n d j. induction l as [|b l IH]; intros n d j Hnd Hj; [done|].
  apply NoDup_cons in Hnd as [Hb Hnd]. simpl.
  destruct j as [|j]; simpl in Hj.
  - injection Hj as ->.
    pose proof (lookup_dict_value_notin l (n + 1) (<[a:=n]> d) a Hb) as Hout.
    unfold dict_from in *. simpl. rewrite Hout, lookup_insert_eq.
    f_equal. lia.
  - pose proof (IH (n + 1) (<[b:=n]> d) j Hnd Hj) as Hin.
    unfold dict_from in *. simpl. rewrite Hin. f_equal. lia.
Qed.

(** [{ i : x for i, x in enumerate(l) }]: an index outside the
    enumeration is left as it was. *)
Lemma lookup_dict_index_out l n (d : gmap Z A) i :
  i < n ∨ n + len l ≤ i →
  dict_from fst snd d (enumerate_from n l) !! i = d !! i.
Proof.
  revert n d. induction l as [|b l IH]; intros n d Hi; simpl; [done|].
  unfold len in *. simpl length in Hi.
  unfold dict_from in *. simpl. rewrite IH by lia.
  apply lookup_insert_ne. lia.
Qed.

(** The index of position [j] is mapped to the element at [j]. *)
Lemma lookup_dict_index l n (d : gmap Z A) j (a : A) :
  l !! j = Some a →
  dict_from fst snd d (enumerate_from n l) !! (n + Z.of_nat j) = Some a.
Proof.
  revert n d j. induction l as [|b l IH]; intros n d j Hj; [done|].
  destruct j as [|j]; simpl in Hj.
  - injection Hj as ->.
    pose proof (lookup_dict_index_out l (n + 1) (<[n:=a]> d) n) as Hout.
    unfold dict_from in *. simpl. rewrite Z.add_0_r, Hout by lia.
    apply lookup_insert_eq.
  - pose proof (IH (n + 1) (<[n:=b]> d) j Hj) as Hin.
    unfold dict_from in *. simpl.
    replace (n + Z.of_nat (S j)) with (n + 1 + Z.of_nat j) by lia. done.
Qed.

End dictionaries.

(** ** Comprehensions over a dictionary attribute *)

Section comprehensions.
Context {S K V : Type} `{Countable K}.
Variables (field : S → gmap K V) (wrap : K → key).

Let item (k : K) : Py S V := let* m := attr field in subscript wrap m k.

(** Looking a key up never writes to the object. *)
Lemma final_item k s : final (item k) s = s.
Proof.
  unfold final, item, bind, attr, subscript. simpl.
  by destruct (field s !! k).
Qed.

Lemma final_comprehension l s : final (comprehension item l) s = s.
Proof.
  induction l as [|k l IH]; [done|].
  unfold final in *. simpl. unfold bind at 1.
  pose proof (final_item k s) as Hk. unfold final in Hk.
  destruct (item k s) as [[e|v] s1]; simpl in Hk; subst s1; [done|].
  unfold bind at 1. destruct (comprehension item l s) as [[e|vs] s2]; done.
Qed.

(** When every key is present the comprehension returns the values, in
    order. *)
Lemma comprehension_values l vs s :
  Forall2 (λ k v, field s !! k = Some v) l vs →
  comprehension item l s = (inr vs, s).
Proof.
  induction 1 as [|k v l vs Hk _ IH]; [done|].
  simpl. unfold bind at 1. unfold item at 1, bind, attr, subscript.
  rewrite Hk. simpl. unfold bind in IH |- *. by rewrite IH.
Qed.

(** Conversely, a comprehension that returns has found every key. *)
Lemma comprehension_returns l vs s s' :
  comprehension item l s = (inr vs, s') →
  Forall2 (λ k v, field s !! k = Some v) l vs.
Proof.
  revert vs s'. induction l as [|k l IH]; intros vs s' Hrun.
  - injection Hrun as <- _. constructor.
  - simpl in Hrun. unfold bind at 1 in Hrun.
    unfold item at 1, bind, attr, subscript in Hrun.
    destruct (field s !! k) as [v|] eqn:Hk; simpl in Hrun; [|discriminate].
    unfold bind in Hrun.
    destruct (comprehension item l s) as [[e|ws] s2] eqn:Hl; [discriminate|].
    injection Hrun as <- _. constructor; [done|]. by eapply IH.
Qed.

(** A key that is absent makes the comprehension raise [KeyError]. *)
Lemma comprehension_raises l s :
  (∃ k, k ∈ l ∧ field s !! k = None) →
  ∃ k, k ∈ l ∧ field s !! k = None
       ∧ outcome (comprehension item l) s = inl (KeyError (wrap k)).
Proof.
  induction l as [|k l IH]; intros (k' & Hin & Hk').
  - by apply elem_of_nil in Hin.
  - unfold outcome. simpl. unfold bind at 1.
    unfold item at 1, bind, attr, subscript.
    destruct (field s !! k) as [v|] eqn:Hk; simpl.
    + apply elem_of_cons in Hin as [->|Hin]; [congruence|].
      destruct IH as (k2 & Hin2 & Hk2 & Hrun); [by eauto|].
      exists k2. split_and!; [by apply list_elem_of_further|done|].
      unfold outcome in Hrun. unfold bind.
      destruct (comprehension item l s) as [[e|ws] s2]; simpl in *; congruence.
    + exists k. split_and!; [by apply list_elem_of_here|done..].
Qed.

Lemma Forall2_lookup_total l s :
  (∀ k, k ∈ l → is_Some (field s !! k)) →
  ∃ vs, Forall2 (λ k v, field s !! k = Some v) l vs.
Proof.
  induction l as [|k l IH]; intros Hall; [by exists []|].
  destruct (Hall k) as [v Hv]; [by apply list_elem_of_here|].
  destruct IH as [vs Hvs].
  { intros k' Hk'. apply Hall. by apply list_elem_of_further. }
  exists (v :: vs). by constructor.
Qed.

End comprehensions.

(** ** The vocabulary *)

Import CharDataset.

Section vocabulary.
Variables (corpus : str) (bs : Z).

Lemma chars_NoDup : NoDup (chars corpus).
Proof.
  unfold chars, sorted. rewrite merge_sort_Permutation. apply NoDup_elements.
Qed.

Lemma elem_of_chars c : c ∈ chars corpus ↔ c ∈ corpus.
Proof.
  unfold chars, sorted, py_set.
  by rewrite merge_sort_Permutation, elem_of_elements, elem_of_list_to_set.
Qed.

(** [sorted] leaves the characters in strictly ascending order. *)
Lemma chars_ascending : StronglySorted N.lt (chars corpus).
Proof.
  pose proof chars_NoDup as Hnd.
  assert (Hle : StronglySorted N.le (chars corpus))
    by (apply (StronglySorted_merge_sort N.le); apply _).
  induction Hle as [|c l _ IH Hall]; [constructor|].
  apply list.NoDup_cons in Hnd as [Hc Hnd]. constructor; [by apply IH|].
  apply Forall_forall. intros c' Hc'.
  rewrite Forall_forall in Hall. specialize (Hall c' Hc').
  assert (c ≠ c') by (intros ->; done). lia.
Qed.

Lemma length_chars : length (chars corpus) = distinct corpus.
Proof.
  unfold distinct. apply Permutation_length.
  apply NoDup_Permutation; [apply chars_NoDup|apply NoDup_remove_dups|].
  intros c. by rewrite elem_of_chars, elem_of_remove_dups.
Qed.

Lemma vocab_size_init : vocab_size (__init__ corpus bs) = Z.of_nat (distinct corpus).
Proof. simpl. unfold len. by rewrite length_chars. Qed.

(** [stoi] maps exactly the character at position [i] of [chars] to [i]. *)
Lemma stoi_lookup c i :
  stoi (__init__ corpus bs) !! c = Some i
  ↔ 0 ≤ i ∧ chars corpus !! Z.to_nat i = Some c.
Proof.
  simpl. unfold dict_of, enumerate. split.
  - intros Hs. destruct (decide (c ∈ chars corpus)) as [Hin|Hout].
    + apply list_elem_of_lookup in Hin as [j Hj].
      rewrite (lookup_dict_value _ 0 ∅ j c chars_NoDup Hj) in Hs.
      injection Hs as <-. split; [lia|].
      by rewrite Z.add_0_l, Nat2Z.id.
    + by rewrite lookup_dict_value_notin, lookup_empty in Hs.
  - intros [Hi Hc].
    rewrite (lookup_dict_value _ 0 ∅ _ c chars_NoDup Hc). f_equal. lia.
Qed.

(** [itos] maps exactly [i] to the character at position [i] of [chars]. *)
Lemma itos_lookup i c :
  itos (__init__ corpus bs) !! i = Some c
  ↔ 0 ≤ i ∧ chars corpus !! Z.to_nat i = Some c.
Proof.
  simpl. unfold dict_of, enumerate. split.
  - intros Hs.
    destruct (decide (0 ≤ i < len (chars corpus))) as [Hin|Hout].
    + destruct (lookup_lt_is_Some_2 (chars corpus) (Z.to_nat i)) as [c' Hc'];
        [unfold len in Hin; lia|].
      pose proof (lookup_dict_index _ 0 ∅ _ c' Hc') as Hi.
      rewrite Z.add_0_l, Z2Nat.id in Hi by lia.
      rewrite Hi in Hs. injection Hs as <-. split; [lia|done].
    + rewrite lookup_dict_index_out, lookup_empty in Hs by lia. done.
  - intros [Hi Hc].
    pose proof (lookup_dict_index _ 0 ∅ _ c Hc) as Hl.
    by rewrite Z.add_0_l, Z2Nat.id in Hl by lia.
Qed.

Lemma stoi_itos c i :
  stoi (__init__ corpus bs) !! c = Some i ↔ itos (__init__ corpus bs) !! i = Some c.
Proof. by rewrite stoi_lookup, itos_lookup. Qed.

(** The keys of [stoi] are the characters of the corpus ... *)
Lemma stoi_is_Some c : is_Some (stoi (__init__ corpus bs) !! c) ↔ c ∈ corpus.
Proof.
  rewrite <- elem_of_chars. split.
  - intros [i [_ Hc]%stoi_lookup]. apply list_elem_of_lookup. eauto.
  - intros [j Hj]%list_elem_of_lookup. exists (Z.of_nat j).
    apply stoi_lookup. split; [lia|]. by rewrite Nat2Z.id.
Qed.

(** ... and the keys of [itos] are the integers [0 .. vocab_size - 1]. *)
Lemma itos_is_Some i :
  is_Some (itos (__init__ corpus bs) !! i) ↔ 0 ≤ i < vocab_size (__init__ corpus bs).
Proof.
  simpl. unfold len. split.
  - intros [c [Hi Hc]%itos_lookup]. apply lookup_lt_Some in Hc. lia.
  - intros Hi.
    destruct (lookup_lt_is_Some_2 (chars corpus) (Z.to_nat i)) as [c Hc]; [lia|].
    exists c. apply itos_lookup. split; [lia|done].
Qed.

End vocabulary.

(** C3.  The vocabulary built by the constructor is a bijection between
    the distinct characters of the corpus and the integers
    [0 .. vocab_size - 1], and [vocab_size] is the number of distinct
    characters: decoding the code of a character of the corpus gives the
    character back, and encoding the character of a token in range gives
    the token back. *)
Theorem vocabulary_bijection (corpus : str) (bs : Z) :
  let ds := __init__ corpus bs in
  vocab_size ds = Z.of_nat (distinct corpus)
  ∧ (∀ c, c ∈ corpus →
       ∃ i, stoi ds !! c = Some i ∧ 0 ≤ i < vocab_size ds ∧ itos ds !! i = Some c)
  ∧ (∀ x, 0 ≤ x < vocab_size ds →
       ∃ c, itos ds !! x = Some c ∧ c ∈ corpus ∧ stoi ds !! c = Some x).
Proof.
  intros ds. split; [|split].
  - apply vocab_size_init.
  - intros c [i Hi]%(stoi_is_Some corpus bs). exists i.
    split; [done|split].
    + apply (itos_is_Some corpus bs). exists c. by apply stoi_itos.
    + by apply stoi_itos.
  - intros x [c Hc]%(itos_is_Some corpus bs). exists c.
    split; [done|split].
    + apply (stoi_is_Some corpus bs). exists x. by apply stoi_itos.
    + by apply stoi_itos.
Qed.

Lemma vocabulary_bijection_witness :
  let ds := __init__ (str_of "hello") 4 in
  (108%N ∈ str_of "hello" ∧ 0 ≤ 2 < vocab_size ds)
  ∧ vocab_size ds = Z.of_nat (distinct (str_of "hello"))
  ∧ (∃ i, stoi ds !! 108%N = Some i ∧ 0 ≤ i < vocab_size ds ∧ itos ds !! i = Some 108%N)
  ∧ (∃ c, itos ds !! 2 = Some c ∧ c ∈ str_of "hello" ∧ stoi ds !! c = Some 2).
Proof.
  assert (Hl : 108%N ∈ str_of "hello").
  { vm_compute. apply list_elem_of_further, list_elem_of_further, list_elem_of_here. }
  assert (Hx : 0 ≤ 2 < vocab_size (__init__ (str_of "hello") 4))
    by (vm_compute; split; congruence).
  destruct (vocabulary_bijection (str_of "hello") 4) as (Hsize & Henc & Hdec).
  split; [split|split; [|split]].
  - exact Hl.
  - exact Hx.
  - exact Hsize.
  - exact (Henc 108%N Hl).
  - exact (Hdec 2 Hx).
Defined.

(** C2.  The number of windows a dataset exposes, [__len__], is the
    length of the corpus minus [block_size]; computing it leaves the
    object as it was. *)
Theorem len_is_length_minus_block_size (corpus : str) (bs : Z) :
  __len__ (__init__ corpus bs) = (inr (len corpus - bs), __init__ corpus bs).
Proof. reflexivity. Qed.

(** C10.  When the corpus is no longer than [block_size], [__len__]
    returns (it does not raise) an integer that is not positive, negative
    when the corpus is strictly shorter, so no index [idx] satisfies
    [0 <= idx < __len__]: the dataset exposes no valid window. *)
Theorem len_short_corpus (corpus : str) (bs : Z) :
  len corpus ≤ bs →
  ∃ n, outcome __len__ (__init__ corpus bs) = inr n
       ∧ n ≤ 0
       ∧ (len corpus < bs → n < 0)
       ∧ ¬ ∃ idx, 0 ≤ idx < n.
Proof.
  intros Hshort. exists (len corpus - bs).
  split; [done|]. split; [lia|]. split; [lia|].
  intros [idx Hidx]. lia.
Qed.

Lemma len_short_corpus_witness :
  len (str_of "hi") ≤ 4
  ∧ ∃ n, outcome __len__ (__init__ (str_of "hi") 4) = inr n
         ∧ n ≤ 0
         ∧ (len (str_of "hi") < 4 → n < 0)
         ∧ ¬ ∃ idx, 0 ≤ idx < n.
Proof.
  assert (H : len (str_of "hi") ≤ 4) by (vm_compute; congruence).
  split; [exact H|]. exact (len_short_corpus (str_of "hi") 4 H).
Defined.

(** ** Windows *)

(** What [__getitem__] computes once the chunk has an encoding. *)
Lemma getitem_run (ds : t) (idx : Z) (dix : list Z) :
  encoding_of ds (slice (data ds) (Some idx) (Some (idx + block_size ds + 1))) dix →
  __getitem__ idx ds = (inr (take (length dix - 1) dix, drop 1 dix), ds).
Proof.
  intros Henc. unfold __getitem__, bind at 1 2, attr at 1 2. simpl.
  unfold bind at 1.
  rewrite (comprehension_values stoi KChar _ dix ds Henc).
  unfold ret, tensor_long. by rewrite slice_init, slice_tail.
Qed.

(** Every chunk of the corpus has an encoding under the vocabulary built
    from that corpus, whatever the index and the block size. *)
Lemma chunk_encoding (corpus : str) (bs idx : Z) :
  ∃ dix, encoding_of (__init__ corpus bs)
           (slice corpus (Some idx) (Some (idx + bs + 1))) dix.
Proof.
  apply (Forall2_lookup_total stoi). intros c Hc.
  apply stoi_is_Some. by eapply slice_subseteq.
Qed.

Lemma encoding_of_length ds chunk toks :
  encoding_of ds chunk toks → length toks = length chunk.
Proof. intros Henc. symmetry. by eapply Forall2_length. Qed.

(** C1.  For a corpus longer than [block_size] and a valid offset [i],
    [__getitem__(i)] returns a pair [(x, y)] of token sequences of length
    [block_size] each, cut from the encoding [dix] of
    [corpus[i : i + block_size + 1]]: [x[k]] encodes [corpus[i + k]],
    [y[k]] encodes [corpus[i + k + 1]], so that [y[k] = x[k + 1]] for
    [k] in [0 .. block_size - 2] and [y[block_size - 1]] encodes
    [corpus[i + block_size]]. *)
Theorem getitem_window (corpus : str) (block_size : nat) (i : Z) :
  Z.of_nat block_size < len corpus →
  0 ≤ i < len corpus - Z.of_nat block_size →
  let ds := __init__ corpus (Z.of_nat block_size) in
  ∃ dix x y,
    outcome (__getitem__ i) ds = inr (x, y)
    ∧ encoding_of ds (slice corpus (Some i) (Some (i + Z.of_nat block_size + 1))) dix
    ∧ x = take block_size dix ∧ y = drop 1 dix
    ∧ length x = block_size ∧ length y = block_size
    ∧ (∀ k, (k < block_size)%nat →
         ∃ c tok, corpus !! (Z.to_nat i + k)%nat = Some c
                  ∧ stoi ds !! c = Some tok ∧ x !! k = Some tok)
    ∧ (∀ k, (k < block_size)%nat →
         ∃ c tok, corpus !! (Z.to_nat i + k + 1)%nat = Some c
                  ∧ stoi ds !! c = Some tok ∧ y !! k = Some tok)
    ∧ (∀ k, (k + 2 ≤ block_size)%nat →
         ∃ tok, y !! k = Some tok ∧ x !! (k + 1)%nat = Some tok)
    ∧ ((1 ≤ block_size)%nat →
         ∃ c tok, corpus !! (Z.to_nat i + block_size)%nat = Some c
                  ∧ stoi ds !! c = Some tok
                  ∧ y !! (block_size - 1)%nat = Some tok).
Proof.
  intros Hlong Hi ds.
  destruct (chunk_encoding corpus (Z.of_nat block_size) i) as [dix Henc].
  fold ds in Henc.
  assert (Hrange : i + (Z.of_nat block_size + 1) ≤ len corpus) by lia.
  assert (Hchunk : ∀ k, (k ≤ block_size)%nat →
            slice corpus (Some i) (Some (i + Z.of_nat block_size + 1)) !! k
            = corpus !! (Z.to_nat i + k)%nat).
  { intros k Hk. rewrite <- Z.add_assoc. apply lookup_slice_inside; lia. }
  assert (Hlen : length dix = S block_size).
  { rewrite (encoding_of_length _ _ _ Henc), <- Z.add_assoc.
    rewrite length_slice_inside by lia. lia. }
  assert (Hdix : ∀ k, (k ≤ block_size)%nat →
            ∃ c tok, corpus !! (Z.to_nat i + k)%nat = Some c
                     ∧ stoi ds !! c = Some tok ∧ dix !! k = Some tok).
  { intros k Hk.
    destruct (lookup_lt_is_Some_2 dix k) as [tok Htok]; [lia|].
    destruct (Forall2_lookup_r _ _ _ _ _ Henc Htok) as (c & Hc & Hct).
    rewrite Hchunk in Hc by done. by exists c, tok. }
  exists dix, (take block_size dix), (drop 1 dix).
  split.
  { unfold outcome. rewrite (getitem_run ds i dix Henc). simpl.
    rewrite Hlen. do 3 f_equal. lia. }
  split; [done|]. split; [done|]. split; [done|].
  split; [rewrite length_take; lia|]. split; [rewrite length_drop; lia|].
  split.
  { intros k Hk. destruct (Hdix k) as (c & tok & Hc & Hs & Hd); [lia|].
    exists c, tok. by rewrite lookup_take_lt. }
  split.
  { intros k Hk. destruct (Hdix (S k)) as (c & tok & Hc & Hs & Hd); [lia|].
    exists c, tok. rewrite lookup_drop.
    by replace (Z.to_nat i + k + 1)%nat with (Z.to_nat i + S k)%nat by lia. }
  split.
  { intros k Hk. destruct (Hdix (S k)) as (c & tok & Hc & Hs & Hd); [lia|].
    exists tok. rewrite lookup_drop, lookup_take_lt by lia.
    by replace (k + 1)%nat with (S k) by lia. }
  intros Hpos. destruct (Hdix block_size) as (c & tok & Hc & Hs & Hd); [lia|].
  exists c, tok. rewrite lookup_drop.
  by replace (1 + (block_size - 1))%nat with block_size by lia.
Qed.

Lemma getitem_window_witness :
  (4 < len (str_of "hello world") ∧ 0 ≤ 2 < len (str_of "hello world") - 4)
  ∧ ∃ x y, outcome (__getitem__ 2) (__init__ (str_of "hello world") 4) = inr (x, y)
           ∧ length x = 4%nat ∧ length y = 4%nat.
Proof.
  assert (Hlong : Z.of_nat 4 < len (str_of "hello world")) by (vm_compute; congruence).
  assert (Hi : 0 ≤ 2 < len (str_of "hello world") - Z.of_nat 4)
    by (vm_compute; split; congruence).
  split; [by split|].
  destruct (getitem_window (str_of "hello world") 4 2 Hlong Hi)
    as (dix & x & y & Hrun & _ & _ & _ & Hx & Hy & _).
  by exists x, y.
Defined.

(** C5.  At a valid index the vocabulary lookup of [__getitem__] cannot
    fail: every character of the chunk is a key of [stoi], because the
    vocabulary was built from the same corpus, and the call returns
    instead of raising. *)
Theorem getitem_lookup_never_fails (corpus : str) (bs idx : Z) :
  0 ≤ idx < len corpus - bs →
  let ds := __init__ corpus bs in
  (∀ c, c ∈ slice corpus (Some idx) (Some (idx + bs + 1)) → is_Some (stoi ds !! c))
  ∧ (∀ e, outcome (__getitem__ idx) ds ≠ inl e)
  ∧ (∃ xy, outcome (__getitem__ idx) ds = inr xy).
Proof.
  intros _ ds. destruct (chunk_encoding corpus bs idx) as [dix Henc].
  pose proof (getitem_run (__init__ corpus bs) idx dix Henc) as Hrun.
  split; [|split].
  - intros c Hc. apply stoi_is_Some. by eapply slice_subseteq.
  - intros e. unfold outcome, ds. by rewrite Hrun.
  - eexists. unfold outcome, ds. by rewrite Hrun.
Qed.

Lemma getitem_lookup_never_fails_witness :
  0 ≤ 3 < len (str_of "hello world") - 4
  ∧ ∃ xy, outcome (__getitem__ 3) (__init__ (str_of "hello world") 4) = inr xy.
Proof.
  assert (Hidx : 0 ≤ 3 < len (str_of "hello world") - 4)
    by (vm_compute; split; congruence).
  split; [exact Hidx|].
  exact (proj2 (proj2 (getitem_lookup_never_fails (str_of "hello world") 4 3 Hidx))).
Defined.

(** C9.  At an index past the range announced by [__len__] but at most
    [len(corpus) - 2], [__getitem__] does not raise and leaves the dataset
    as it was.  The slice stops at the end of the corpus: the chunk is
    [corpus[idx:]], whose length is [len(corpus) - idx] for a non-negative
    index (and the last [-idx] characters, at most the whole corpus, for a
    negative one).  The input and the target are cut from the encoding
    [dix] of that chunk, [x = dix[:-1]] and [y = dix[1:]]: [x[k]] encodes
    the character [k] of the chunk and [y[k]] the character [k + 1]; they
    have the same length, one less than the chunk, strictly less than
    [block_size]. *)
Theorem getitem_past_the_end (corpus : str) (bs idx : Z) :
  len corpus - bs ≤ idx ≤ len corpus - 2 →
  let ds := __init__ corpus bs in
  let chunk := slice corpus (Some idx) None in
  ∃ dix x y,
    __getitem__ idx ds = (inr (x, y), ds)
    ∧ outcome (__getitem__ idx) ds = inr (x, y)
    ∧ slice corpus (Some idx) (Some (idx + bs + 1)) = chunk
    ∧ len chunk = (if idx <? 0 then Z.min (- idx) (len corpus) else len corpus - idx)
    ∧ encoding_of ds chunk dix
    ∧ x = take (length dix - 1) dix ∧ y = drop 1 dix
    ∧ length x = (length chunk - 1)%nat
    ∧ length x = length y
    ∧ Z.of_nat (length x) < bs
    ∧ (∀ k, (k + 1 < length chunk)%nat →
         ∃ c c' tok tok',
           chunk !! k = Some c ∧ chunk !! (k + 1)%nat = Some c'
           ∧ stoi ds !! c = Some tok ∧ stoi ds !! c' = Some tok'
           ∧ x !! k = Some tok ∧ y !! k = Some tok').
Proof.
  intros Hidx ds chunk.
  pose proof (len_nonneg corpus) as Hn.
  assert (Hchunk : slice corpus (Some idx) (Some (idx + bs + 1)) = chunk).
  { unfold chunk, slice, slice_bound.
    destruct (Z.ltb_spec (idx + bs + 1) 0); [lia|].
    by rewrite Z.min_r by lia. }
  destruct (chunk_encoding corpus bs idx) as [dix Henc].
  pose proof (getitem_run (__init__ corpus bs) idx dix Henc) as Hrun.
  rewrite Hchunk in Henc. fold ds in Henc, Hrun.
  pose proof (encoding_of_length _ _ _ Henc) as Hdix.
  assert (Hlen : len chunk
            = if idx <? 0 then Z.min (- idx) (len corpus) else len corpus - idx).
  { unfold len at 1. unfold chunk. rewrite length_slice. unfold slice_bound.
    destruct (Z.ltb_spec idx 0); lia. }
  exists dix, (take (length dix - 1) dix), (drop 1 dix).
  split; [done|]. split; [unfold outcome; by rewrite Hrun|].
  split; [done|]. split; [done|]. split; [done|].
  split; [done|]. split; [done|].
  split; [rewrite length_take, Hdix; lia|].
  split; [rewrite length_take, length_drop; lia|].
  split.
  { rewrite length_take, Hdix. unfold len in Hlen at 1.
    destruct (Z.ltb_spec idx 0); lia. }
  intros k Hk.
  destruct (lookup_lt_is_Some_2 chunk k) as [c Hc]; [lia|].
  destruct (lookup_lt_is_Some_2 chunk (k + 1)) as [c' Hc']; [lia|].
  destruct (Forall2_lookup_l _ _ _ _ _ Henc Hc) as (tok & Htok & Hs).
  destruct (Forall2_lookup_l _ _ _ _ _ Henc Hc') as (tok' & Htok' & Hs').
  exists c, c', tok, tok'.
  split; [done|]. split; [done|]. split; [done|]. split; [done|].
  split; [by rewrite lookup_take_lt by lia|].
  rewrite lookup_drop. by replace (1 + k)%nat with (k + 1)%nat by lia.
Qed.

Lemma getitem_past_the_end_witness :
  len (str_of "hello") - 4 ≤ 2 ≤ len (str_of "hello") - 2
  ∧ ∃ dix x y,
      __getitem__ 2 (__init__ (str_of "hello") 4)
      = (inr (x, y), __init__ (str_of "hello") 4)
      ∧ slice (str_of "hello") (Some 2) (Some (2 + 4 + 1))
        = slice (str_of "hello") (Some 2) None
      ∧ encoding_of (__init__ (str_of "hello") 4)
          (slice (str_of "hello") (Some 2) None) dix
      ∧ x = take (length dix - 1) dix ∧ y = drop 1 dix
      ∧ length x = (length (slice (str_of "hello") (Some 2%Z) None) - 1)%nat
      ∧ length x = length y
      ∧ Z.of_nat (length x) < 4.
Proof.
  assert (Hidx : len (str_of "hello") - 4 ≤ 2 ≤ len (str_of "hello") - 2)
    by (vm_compute; split; congruence).
  split; [exact Hidx|].
  destruct (getitem_past_the_end (str_of "hello") 4 2 Hidx)
    as (dix & x & y & Hrun & _ & Hchunk & _ & Henc & Hx & Hy & Hlen & Heq & Hlt & _).
  exists dix, x, y. repeat (split; [assumption|]). assumption.
Defined.

(** The truncated window of the example above, evaluated. *)
Example getitem_past_the_end_hello :
  outcome (__getitem__ 2) (__init__ (str_of "hello") 4) = inr ([2; 2], [2; 3]).
Proof. vm_compute. reflexivity. Qed.

(** C8.  [__getitem__] only reads: whatever the object and the index, the
    call leaves [data], [stoi], [itos], [block_size] and [vocab_size] as
    they were, and a second call with the same index has the same outcome
    as the first. *)
Theorem getitem_pure (ds : t) (idx : Z) :
  let ds' := final (__getitem__ idx) ds in
  data ds' = data ds ∧ stoi ds' = stoi ds ∧ itos ds' = itos ds
  ∧ block_size ds' = block_size ds ∧ vocab_size ds' = vocab_size ds
  ∧ outcome (__getitem__ idx) ds' = outcome (__getitem__ idx) ds.
Proof.
  assert (Hfinal : final (__getitem__ idx) ds = ds).
  { unfold final, __getitem__, bind at 1 2, attr at 1 2. simpl.
    unfold bind at 1.
    pose proof (final_comprehension stoi KChar
      (slice (data ds) (Some idx) (Some (idx + block_size ds + 1))) ds) as Hc.
    unfold final in Hc.
    destruct (comprehension _ _ ds) as [[e|dix] s']; simpl in *; by subst. }
  intros ds'. subst ds'. by rewrite Hfinal.
Qed.

(** The failure the lookup can produce does exist, outside [__getitem__]:
    encoding a prompt with a character that is not in the corpus raises
    [KeyError]. *)
Lemma encode_unknown_character (corpus context : str) (bs : Z) (c : char) :
  c ∈ context → c ∉ corpus →
  ∃ k, (k ∉ corpus)
       ∧ outcome (encode context) (__init__ corpus bs) = inl (KeyError (KChar k)).
Proof.
  intros Hin Hout.
  destruct (comprehension_raises stoi KChar context (__init__ corpus bs))
    as (k & _ & Hk & Hrun).
  - exists c. split; [done|]. apply eq_None_not_Some. by rewrite stoi_is_Some.
  - exists k. split; [|done]. rewrite <- (stoi_is_Some corpus bs).
    by apply eq_None_not_Some.
Qed.

Example encode_unknown_hello :
  outcome (encode (str_of "help")) (__init__ (str_of "hello") 4)
  = inl (KeyError (KChar 112%N)).
Proof. vm_compute. reflexivity. Qed.

(** C6.  The corpus "hello" with [block_size = 4] has exactly one window
    ([__len__] is 1, so the only valid index is 0); its input decodes to
    "hell" and its target to "ello". *)
Theorem hello_one_window :
  let ds := __init__ (str_of "hello") 4 in
  outcome __len__ ds = inr 1
  ∧ ∃ x y, outcome (__getitem__ 0) ds = inr (x, y)
           ∧ outcome (decode x) ds = inr (str_of "hell")
           ∧ outcome (decode y) ds = inr (str_of "ello").
Proof.
  split; [reflexivity|].
  exists [1; 0; 2; 2], [0; 2; 2; 3].
  split; [|split]; vm_compute; reflexivity.
Qed.

(** ** The sampler *)

Section sampler_facts.
Context `{Sampler.Substrate}.
Implicit Types (m : Sampler.model) (o : Sampler.options) (x : list Z) (g : Sampler.rng).

(** A step appends exactly one token to the sequence. *)
Lemma step_appends m o x g :
  ∃ ix, (Sampler.step m o (x, g)).1 = x ++ [ix].
Proof.
  unfold Sampler.step.
  destruct (Sampler.do_sample o).
  - destruct (Sampler.multinomial _ g) as [ix g']. by exists ix.
  - by eexists.
Qed.

Lemma sample_from_appends m o (steps : nat) x g :
  ∃ new, (Sampler.sample_from m o steps (x, g)).1 = x ++ new
         ∧ length new = steps.
Proof.
  revert x g. induction steps as [|steps IH]; intros x g.
  - exists []. by rewrite app_nil_r.
  - change (Sampler.sample_from m o (S steps) (x, g))
      with (Sampler.sample_from m o steps (Sampler.step m o (x, g))).
    destruct (step_appends m o x g) as [ix Hix].
    destruct (Sampler.step m o (x, g)) as [x1 g1]. simpl in Hix. subst x1.
    destruct (IH (x ++ [ix]) g1) as (new & Hnew & Hlen).
    exists (ix :: new). split; [|simpl; by rewrite Hlen].
    by rewrite Hnew, <- app_assoc.
Qed.

(** C7.  For every prompt and every requested count [n], the sampler
    returns the prompt followed by exactly [n] new tokens: the length of
    the result is the length of the prompt plus [n], and nothing stops
    the loop earlier. *)
Theorem sample_length m o (prompt : list Z) (n : nat) g :
  let y := (Sampler.sample m prompt n o g).1 in
  length y = (length prompt + n)%nat
  ∧ ∃ new, y = prompt ++ new ∧ length new = n.
Proof.
  intros y. destruct (sample_from_appends m o n prompt g) as (new & Hnew & Hlen).
  unfold y, Sampler.sample. split; [|by exists new].
  rewrite Hnew, length_app. by rewrite Hlen.
Qed.

End sampler_facts.

(** Three steps from a prompt of two tokens with a context of two tokens:
    from the second step on the model only sees the last two tokens. *)
Example sample_counting :
  (@Sampler.sample counting 2%nat [7; 8] 3
     (@Sampler.Options counting (Some 1) true (Some 10%nat)) tt).1
  = [7; 8; 2; 2; 2].
Proof. reflexivity. Qed.

(** ** Causality of the model *)

Section agreement.
Context {A B C : Type}.
Implicit Types (xs ys : list A) (t p : nat).

Lemma agree_upto_refl t xs : agree_upto t xs xs.
Proof. by split. Qed.

(** Past the common prefix the two sequences are defined at the same
    positions. *)
Lemma agree_upto_is_Some t xs ys p :
  agree_upto t xs ys → is_Some (xs !! p) ↔ is_Some (ys !! p).
Proof. intros [Hlen _]. by rewrite !lookup_lt_is_Some, Hlen. Qed.

Lemma agree_upto_fmap (f : A → B) t xs ys :
  agree_upto t xs ys → agree_upto t (f <$> xs) (f <$> ys).
Proof.
  intros [Hlen Hpre]. split; [by rewrite !length_fmap|].
  intros p Hp. by rewrite !list_lookup_fmap, Hpre.
Qed.

(** A position-indexed map whose function may itself depend on the whole
    sequence, as long as it gives the same result up to [t]. *)
Lemma agree_upto_imap (f g : nat → A → B) t xs ys :
  (∀ p x, (p ≤ t)%nat → f p x = g p x) →
  agree_upto t xs ys → agree_upto t (imap f xs) (imap g ys).
Proof.
  intros Hfg [Hlen Hpre]. split; [by rewrite !length_imap|].
  intros p Hp. rewrite !list_lookup_imap, Hpre by done.
  destruct (ys !! p); simpl; [|done]. by rewrite Hfg.
Qed.

Lemma agree_upto_zip_with (f : A → B → C) t xs ys (us vs : list B) :
  agree_upto t xs ys → agree_upto t us vs →
  agree_upto t (zip_with f xs us) (zip_with f ys vs).
Proof.
  intros [Hlen Hpre] [Hlen' Hpre']. split.
  - rewrite !length_zip_with. lia.
  - intros p Hp. by rewrite !lookup_zip_with, Hpre, Hpre'.
Qed.

End agreement.

Section causality.
Import GPT.
Implicit Types (xs ys : list vec) (t p : nat).

(** The row of masked scores of position [p] is the same over two
    sequences that agree up to [t >= p]: the entries at later positions
    are all minus infinity. *)
Lemma masked_row_agree (score : vec → R) t p xs ys :
  agree_upto t xs ys → (p ≤ t)%nat →
  imap (λ s xs_s, masked_fill (mask p s) (score xs_s)) xs
  = imap (λ s ys_s, masked_fill (mask p s) (score ys_s)) ys.
Proof.
  intros Hag Hp. apply list_eq. intros s. rewrite !list_lookup_imap.
  destruct (decide (s ≤ t)%nat) as [Hs|Hs].
  - destruct Hag as [_ Hpre]. by rewrite Hpre.
  - assert (Hmask : mask p s = false) by (apply Nat.leb_gt; lia).
    rewrite Hmask. pose proof (agree_upto_is_Some t xs ys s Hag) as Hdef.
    destruct (xs !! s) as [x|] eqn:Hx, (ys !! s) as [y|] eqn:Hy; simpl; try done.
    + destruct Hdef as [Hdef _]. destruct Hdef as [? ?]; [by eexists|done].
    + destruct Hdef as [_ Hdef]. destruct Hdef as [? ?]; [by eexists|done].
Qed.

(** A masked position has weight zero. *)
Lemma softmax_masked (row : list (option R)) (s : nat) :
  row !! s = Some None → softmax row !! s = Some 0%R.
Proof.
  intros Hs. unfold softmax. rewrite list_lookup_fmap, Hs. simpl.
  f_equal. unfold Rdiv. apply Rmult_0_l.
Qed.

(** The weighted sum of the values: a term of weight zero is zero
    whatever the value at that position. *)
Lemma weighted_values_agree (h : head) (j : nat) t p (score : vec → R) xs ys :
  agree_upto t xs ys → (p ≤ t)%nat →
  let att := softmax (imap (λ s xs_s, masked_fill (mask p s) (score xs_s)) xs) in
  zip_with (λ w xs_s, (w * nth j (value h xs_s) 0)%R) att xs
  = zip_with (λ w ys_s, (w * nth j (value h ys_s) 0)%R) att ys.
Proof.
  intros Hag Hp att. apply list_eq. intros s. rewrite !lookup_zip_with.
  destruct (decide (s ≤ t)%nat) as [Hs|Hs].
  - destruct Hag as [_ Hpre]. by rewrite Hpre.
  - assert (Hmask : mask p s = false) by (apply Nat.leb_gt; lia).
    pose proof (agree_upto_is_Some t xs ys s Hag) as Hdef.
    destruct (xs !! s) as [x|] eqn:Hx, (ys !! s) as [y|] eqn:Hy.
    + assert (Hw : att !! s = Some 0%R).
      { apply softmax_masked. by rewrite list_lookup_imap, Hx, Hmask. }
      rewrite Hw. simpl. by rewrite !Rmult_0_l.
    + destruct Hdef as [Hdef _]. destruct Hdef as [? ?]; [by eexists|done].
    + destruct Hdef as [_ Hdef]. destruct Hdef as [? ?]; [by eexists|done].
    + by destruct (att !! s).
Qed.

(** The output of a head at a position [p <= t] does not depend on the
    positions after [t]. *)
Lemma attend_agree (h : head) t p (x : vec) xs ys :
  agree_upto t xs ys → (p ≤ t)%nat → attend h xs p x = attend h ys p x.
Proof.
  intros Hag Hp. unfold attend.
  pose (score := λ v : vec, (dot (query h x) (key h v) * scale h)%R).
  apply list_fmap_ext. intros _ j _. f_equal.
  pose proof (weighted_values_agree h j t p score xs ys Hag Hp) as Hsum.
  pose proof (masked_row_agree score t p xs ys Hag Hp) as Hrow.
  simpl in Hsum. rewrite Hrow in Hsum at 2. exact Hsum.
Qed.

Lemma attention_agree (b : block) t xs ys :
  agree_upto t xs ys → agree_upto t (attention b xs) (attention b ys).
Proof.
  intros Hag. unfold attention. apply agree_upto_imap; [|done].
  intros p x Hp. do 2 f_equal. apply list_fmap_ext. intros _ h _.
  by apply (attend_agree h t).
Qed.

Lemma block_forward_agree (b : block) t xs ys :
  agree_upto t xs ys → agree_upto t (block_forward b xs) (block_forward b ys).
Proof.
  intros Hag. unfold block_forward.
  assert (Hres : agree_upto t
            (zip_with vadd xs (attention b (ln1 b <$> xs)))
            (zip_with vadd ys (attention b (ln1 b <$> ys)))).
  { apply agree_upto_zip_with; [done|].
    by apply attention_agree, agree_upto_fmap. }
  apply agree_upto_zip_with; [done|]. by apply agree_upto_fmap.
Qed.

Lemma blocks_agree (bs : list block) t xs ys :
  agree_upto t xs ys →
  agree_upto t (foldl (λ xs b, block_forward b xs) xs bs)
               (foldl (λ xs b, block_forward b xs) ys bs).
Proof.
  revert xs ys. induction bs as [|b bs IH]; intros xs ys Hag; [done|].
  simpl. by apply IH, block_forward_agree.
Qed.

(** C4.  The logits at a position [t] depend only on the tokens at the
    positions [0 .. t]: on two inputs of the same length, within the
    context length, that differ only at positions after [t], the forward
    pass returns the same logits at [t] (and at every earlier position). *)
Theorem forward_causal (m : GPT.t) (idx idx' : list Z) (t : nat) :
  (length idx ≤ block_size m)%nat →
  agree_upto t idx idx' →
  ∃ out out', forward m idx = Some out ∧ forward m idx' = Some out'
              ∧ length out = length idx ∧ length out' = length idx
              ∧ ∀ p, (p ≤ t)%nat → out !! p = out' !! p.
Proof.
  intros Hctx Hag. unfold forward.
  pose proof Hag as [Hlen _]. rewrite <- Hlen.
  destruct (Nat.leb_spec (length idx) (block_size m)) as [_|]; [|lia].
  eexists _, _. split; [done|]. split; [done|].
  assert (Hout : agree_upto t
    ((λ x, lm_head m (ln_f m x)) <$>
       foldl (λ xs b, block_forward b xs)
         (imap (λ p tok, vadd (tok_emb m tok) (pos_emb m p)) idx) (blocks m))
    ((λ x, lm_head m (ln_f m x)) <$>
       foldl (λ xs b, block_forward b xs)
         (imap (λ p tok, vadd (tok_emb m tok) (pos_emb m p)) idx') (blocks m))).
  { apply agree_upto_fmap, blocks_agree. by apply agree_upto_imap. }
  destruct Hout as [Hlen' Hpre].
  assert (Hkeep : ∀ (bs : list block) xs,
            length (foldl (λ xs b, block_forward b xs) xs bs) = length xs).
  { induction bs as [|b bs IH]; intros xs; [done|]. simpl. rewrite IH.
    unfold block_forward, attention.
    rewrite !length_zip_with, !length_fmap, length_zip_with, length_imap, length_fmap.
    lia. }
  split; [by rewrite length_fmap, Hkeep, length_imap|].
  split; [by rewrite <- Hlen', length_fmap, Hkeep, length_imap|done].
Qed.

End causality.

Lemma forward_causal_witness :
  (length [1; 2; 3] ≤ GPT.block_size tiny_gpt)%nat
  ∧ agree_upto 1 [1; 2; 3] [1; 2; 7]
  ∧ ∃ out out', GPT.forward tiny_gpt [1; 2; 3] = Some out
                ∧ GPT.forward tiny_gpt [1; 2; 7] = Some out'
                ∧ out !! 1%nat = out' !! 1%nat.
Proof.
  assert (Hctx : (length [1; 2; 3] ≤ GPT.block_size tiny_gpt)%nat) by (simpl; lia).
  assert (Hag : agree_upto 1 [1; 2; 3] [1; 2; 7]).
  { split; [reflexivity|]. intros [|[|p]] Hp; [reflexivity|reflexivity|lia]. }
  split; [exact Hctx|]. split; [exact Hag|].
  destruct (forward_causal tiny_gpt [1; 2; 3] [1; 2; 7] 1 Hctx Hag)
    as (out & out' & Hout & Hout' & _ & _ & Hsame).
  exists out, out'. split; [exact Hout|]. split; [exact Hout'|].
  apply Hsame. lia.
Defined.

(** The vocabulary of that corpus, and its window in tokens. *)
Example hello_chars : CharDataset.chars (str_of "hello") = str_of "ehlo".
Proof. vm_compute. reflexivity. Qed.

Example hello_getitem :
  outcome (CharDataset.__getitem__ 0) (CharDataset.__init__ (str_of "hello") 4)
  = inr ([1; 0; 2; 2], [0; 2; 2; 3]).
Proof. vm_compute. reflexivity. Qed.

(** * Further properties of the notebook's code *)

(** ** Encoding and decoding in the sampling cell *)

Section first_missing.
Context {S K V : Type} `{Countable K}.
Variables (field : S → gmap K V) (wrap : K → key).

Lemma comprehension_cons {A B} (f : A → Py S B) (a : A) (l : list A) (s : S) :
  comprehension f (a :: l) s
  = match f a s with
    | (inr b, s') =>
        match comprehension f l s' with
        | (inr bs, s'') => (inr (b :: bs), s'')
        | (inl e, s'') => (inl e, s'')
        end
    | (inl e, s') => (inl e, s')
    end.
Proof. reflexivity. Qed.

Lemma subscript_attr (k : K) (s : S) :
  (let* m := attr field in subscript wrap m k) s
  = match field s !! k with
    | Some v => (inr v, s)
    | None => (inl (KeyError (wrap k)), s)
    end.
Proof. unfold bind, attr, subscript. by destruct (field s !! k). Qed.

(** A comprehension over dictionary lookups stops at the first key that
    is absent and reports that key. *)
Lemma comprehension_first_missing (pre post : list K) (k : K) (s : S) :
  Forall (λ k', is_Some (field s !! k')) pre →
  field s !! k = None →
  comprehension (λ k', let* m := attr field in subscript wrap m k')
    (pre ++ k :: post) s
  = (inl (KeyError (wrap k)), s).
Proof.
  intros Hpre Hk. induction Hpre as [|k' pre [v Hv] _ IH].
  - simpl app. by rewrite comprehension_cons, subscript_attr, Hk.
  - rewrite <- app_comm_cons, comprehension_cons, subscript_attr, Hv.
    by rewrite IH.
Qed.

End first_missing.

Section codec.
Variables (corpus : str) (bs : Z).
Let ds := __init__ corpus bs.

Lemma encoding_decoding chunk toks :
  encoding_of ds chunk toks ↔ decoding_of ds toks chunk.
Proof.
  unfold encoding_of, decoding_of. rewrite <- Forall2_flip.
  split; intros Hall; (eapply Forall2_impl; [exact Hall|]);
    intros tok c; unfold flip; by apply stoi_itos.
Qed.

Lemma encoding_in_vocab chunk toks :
  encoding_of ds chunk toks → Forall (in_vocab ds) toks.
Proof.
  induction 1 as [|c tok chunk toks Hc _ IH]; constructor; [|done].
  apply (itos_is_Some corpus bs). exists c. by apply stoi_itos.
Qed.

Lemma decoding_in_corpus toks s :
  decoding_of ds toks s → ∀ c, c ∈ s → c ∈ corpus.
Proof.
  induction 1 as [|tok c toks s Hc _ IH]; intros c' Hc'.
  - by apply elem_of_nil in Hc'.
  - apply elem_of_cons in Hc' as [->|Hc']; [|by apply IH].
    apply (stoi_is_Some corpus bs). exists tok. by apply stoi_itos.
Qed.

Lemma encoding_exists (context : str) :
  (∀ c, c ∈ context → c ∈ corpus) → ∃ toks, encoding_of ds context toks.
Proof.
  intros Hin. apply (Forall2_lookup_total stoi). intros c Hc.
  by apply stoi_is_Some, Hin.
Qed.

Lemma decoding_exists (toks : list Z) :
  Forall (in_vocab ds) toks → ∃ s, decoding_of ds toks s.
Proof.
  intros Hin. apply (Forall2_lookup_total itos). intros tok Htok.
  apply itos_is_Some. rewrite Forall_forall in Hin. by apply Hin.
Qed.

Lemma encode_run context toks :
  encoding_of ds context toks → encode context ds = (inr toks, ds).
Proof. apply (comprehension_values stoi KChar). Qed.

Lemma decode_run toks s :
  decoding_of ds toks s → decode toks ds = (inr s, ds).
Proof. apply (comprehension_values itos KInt). Qed.

End codec.

(** X1.  A prompt whose characters all occur in the corpus is encoded
    without error into as many tokens as it has characters, all of them in
    [0 .. vocab_size - 1], and decoding these tokens gives the prompt
    back. *)
Theorem encode_then_decode (corpus context : str) (bs : Z) :
  (∀ c, c ∈ context → c ∈ corpus) →
  let ds := __init__ corpus bs in
  ∃ toks, encode context ds = (inr toks, ds)
          ∧ length toks = length context
          ∧ Forall (in_vocab ds) toks
          ∧ decode toks ds = (inr context, ds).
Proof.
  intros Hin ds. destruct (encoding_exists corpus bs context Hin) as [toks Henc].
  exists toks. split; [by apply encode_run|].
  split; [by eapply encoding_of_length|].
  split; [by eapply encoding_in_vocab|].
  by apply decode_run, encoding_decoding.
Qed.

Lemma encode_then_decode_witness :
  (∀ c, c ∈ str_of "hell" → c ∈ str_of "hello")
  ∧ ∃ toks, encode (str_of "hell") (__init__ (str_of "hello") 4)
              = (inr toks, __init__ (str_of "hello") 4)
            ∧ decode toks (__init__ (str_of "hello") 4)
              = (inr (str_of "hell"), __init__ (str_of "hello") 4).
Proof.
  assert (Hin : ∀ c, c ∈ str_of "hell" → c ∈ str_of "hello").
  { intros c Hc. change (str_of "hello") with (str_of "hell" ++ str_of "o").
    apply elem_of_app. by left. }
  split; [exact Hin|].
  destruct (encode_then_decode (str_of "hello") (str_of "hell") 4 Hin)
    as (toks & Henc & _ & _ & Hdec).
  by exists toks.
Defined.

(** X2.  A sequence of tokens that all lie in [0 .. vocab_size - 1] is
    decoded without error into characters of the corpus, and encoding the
    decoded text gives the tokens back. *)
Theorem decode_then_encode (corpus : str) (bs : Z) (toks : list Z) :
  let ds := __init__ corpus bs in
  Forall (in_vocab ds) toks →
  ∃ s, decode toks ds = (inr s, ds)
       ∧ length s = length toks
       ∧ (∀ c, c ∈ s → c ∈ corpus)
       ∧ encode s ds = (inr toks, ds).
Proof.
  intros ds Hin. destruct (decoding_exists corpus bs toks Hin) as [s Hdec].
  exists s. split; [by apply decode_run|].
  split; [symmetry; by eapply Forall2_length|].
  split; [by eapply decoding_in_corpus|].
  by apply encode_run, encoding_decoding.
Qed.

Lemma decode_then_encode_witness :
  Forall (in_vocab (__init__ (str_of "hello") 4)) [3; 0]
  ∧ ∃ s, decode [3; 0] (__init__ (str_of "hello") 4)
           = (inr s, __init__ (str_of "hello") 4)
         ∧ encode s (__init__ (str_of "hello") 4)
           = (inr [3; 0], __init__ (str_of "hello") 4).
Proof.
  assert (Hin : Forall (in_vocab (__init__ (str_of "hello") 4)) [3; 0]).
  { repeat constructor; vm_compute; congruence. }
  split; [exact Hin|].
  destruct (decode_then_encode (str_of "hello") 4 [3; 0] Hin)
    as (s & Hdec & _ & _ & Henc).
  by exists s.
Defined.

(** X3.  Encoding a prompt stops at its first character that does not
    occur in the corpus and raises [KeyError] with that character; the
    dataset is left as it was. *)
Theorem encode_first_unknown (corpus pre post : str) (c : char) (bs : Z) :
  (∀ c', c' ∈ pre → c' ∈ corpus) → c ∉ corpus →
  let ds := __init__ corpus bs in
  encode (pre ++ c :: post) ds = (inl (KeyError (KChar c)), ds).
Proof.
  intros Hpre Hc ds. subst ds. apply (comprehension_first_missing stoi KChar).
  - apply Forall_forall. intros c' Hc'. by apply stoi_is_Some, Hpre.
  - apply eq_None_not_Some. by rewrite stoi_is_Some.
Qed.

Lemma encode_first_unknown_witness :
  ((∀ c', c' ∈ str_of "hel" → c' ∈ str_of "hello") ∧ 112%N ∉ str_of "hello")
  ∧ encode (str_of "hel" ++ 112%N :: str_of "!") (__init__ (str_of "hello") 4)
    = (inl (KeyError (KChar 112%N)), __init__ (str_of "hello") 4).
Proof.
  assert (Hpre : ∀ c', c' ∈ str_of "hel" → c' ∈ str_of "hello").
  { intros c' Hc'. change (str_of "hello") with (str_of "hel" ++ str_of "lo").
    apply elem_of_app. by left. }
  assert (Hc : 112%N ∉ str_of "hello").
  { vm_compute. intros Hc. repeat (apply elem_of_cons in Hc as [Hc|Hc]; [discriminate|]).
    by apply elem_of_nil in Hc. }
  split; [by split|].
  exact (encode_first_unknown (str_of "hello") (str_of "hel") (str_of "!") 112%N 4 Hpre Hc).
Defined.

(** X4.  Decoding stops at the first token outside [0 .. vocab_size - 1]
    and raises [KeyError] with that token; the dataset is left as it
    was. *)
Theorem decode_first_out_of_range (corpus : str) (bs : Z)
    (pre post : list Z) (tok : Z) :
  let ds := __init__ corpus bs in
  Forall (in_vocab ds) pre → ¬ in_vocab ds tok →
  decode (pre ++ tok :: post) ds = (inl (KeyError (KInt tok)), ds).
Proof.
  intros ds Hpre Htok. subst ds. apply (comprehension_first_missing itos KInt).
  - eapply Forall_impl; [exact Hpre|]. intros tok' Htok'. by apply itos_is_Some.
  - apply eq_None_not_Some. by rewrite itos_is_Some.
Qed.

Lemma decode_first_out_of_range_witness :
  (Forall (in_vocab (__init__ (str_of "hello") 4)) [1; 0]
   ∧ ¬ in_vocab (__init__ (str_of "hello") 4) 4)
  ∧ decode ([1; 0] ++ 4 :: [2]) (__init__ (str_of "hello") 4)
    = (inl (KeyError (KInt 4)), __init__ (str_of "hello") 4).
Proof.
  assert (Hpre : Forall (in_vocab (__init__ (str_of "hello") 4)) [1; 0]).
  { repeat constructor; vm_compute; congruence. }
  assert (Htok : ¬ in_vocab (__init__ (str_of "hello") 4) 4).
  { intros [_ Hlt]. vm_compute in Hlt. discriminate. }
  split; [by split|].
  exact (decode_first_out_of_range (str_of "hello") 4 [1; 0] [2] 4 Hpre Htok).
Defined.

(** X5.  The text printed by the sampling cell begins with the prompt:
    when the prompt is encodable and the tokens appended to its encoding
    are tokens of the vocabulary, decoding the whole sequence gives the
    prompt followed by one character per appended token. *)
Theorem completion_starts_with_prompt (corpus context : str) (bs : Z)
    (new : list Z) :
  (∀ c, c ∈ context → c ∈ corpus) →
  let ds := __init__ corpus bs in
  Forall (in_vocab ds) new →
  ∃ toks s', encode context ds = (inr toks, ds)
             ∧ decode (toks ++ new) ds = (inr (context ++ s'), ds)
             ∧ length s' = length new.
Proof.
  intros Hin ds Hnew.
  destruct (encoding_exists corpus bs context Hin) as [toks Henc].
  destruct (decoding_exists corpus bs new Hnew) as [s' Hdec].
  exists toks, s'. split; [by apply encode_run|].
  split; [|symmetry; by eapply Forall2_length].
  apply decode_run. apply Forall2_app; [|done]. by apply encoding_decoding.
Qed.

Lemma completion_starts_with_prompt_witness :
  ((∀ c, c ∈ str_of "hell" → c ∈ str_of "hello")
   ∧ Forall (in_vocab (__init__ (str_of "hello") 4)) [3; 3])
  ∧ ∃ toks s', encode (str_of "hell") (__init__ (str_of "hello") 4)
                 = (inr toks, __init__ (str_of "hello") 4)
               ∧ decode (toks ++ [3; 3]) (__init__ (str_of "hello") 4)
                 = (inr (str_of "hell" ++ s'), __init__ (str_of "hello") 4)
               ∧ length s' = length [3; 3].
Proof.
  assert (Hin : ∀ c, c ∈ str_of "hell" → c ∈ str_of "hello").
  { intros c Hc. change (str_of "hello") with (str_of "hell" ++ str_of "o").
    apply elem_of_app. by left. }
  assert (Hnew : Forall (in_vocab (__init__ (str_of "hello") 4)) [3; 3]).
  { repeat constructor; vm_compute; congruence. }
  split; [by split|].
  exact (completion_starts_with_prompt (str_of "hello") (str_of "hell") 4 [3; 3] Hin Hnew).
Defined.

(** ** The vocabulary, further *)

Lemma StronglySorted_lookup_lt {A} (R : relation A) (l : list A) (i j : nat) (a b : A) :
  StronglySorted R l → l !! i = Some a → l !! j = Some b → (i < j)%nat → R a b.
Proof.
  intros Hsorted. revert i j.
  induction Hsorted as [|x l _ IH Hall]; intros i j Hi Hj Hlt; [done|].
  destruct j as [|j]; [lia|]. simpl in Hj. destruct i as [|i]; simpl in Hi.
  - injection Hi as ->. rewrite Forall_forall in Hall. apply Hall.
    by eapply list_elem_of_lookup_2.
  - apply (IH i j); [done..|lia].
Qed.

(** X6.  The vocabulary follows the order of the characters: of two
    characters of the corpus, the one with the smaller code point has the
    smaller token. *)
Theorem stoi_monotone (corpus : str) (bs : Z) (c1 c2 : char) (i1 i2 : Z) :
  let ds := __init__ corpus bs in
  stoi ds !! c1 = Some i1 → stoi ds !! c2 = Some i2 →
  ((c1 < c2)%N ↔ i1 < i2).
Proof.
  intros ds [H1 Hc1]%stoi_lookup [H2 Hc2]%stoi_lookup.
  pose proof (chars_ascending corpus) as Hsorted.
  assert (Hup : ∀ (a b : char) (i j : Z), 0 ≤ i → 0 ≤ j →
            chars corpus !! Z.to_nat i = Some a →
            chars corpus !! Z.to_nat j = Some b → i < j → (a < b)%N).
  { intros a b i j Hi Hj Ha Hb Hlt.
    apply (StronglySorted_lookup_lt N.lt _ _ _ _ _ Hsorted Ha Hb). lia. }
  split.
  - intros Hlt. destruct (Z.lt_trichotomy i1 i2) as [?|[->|Hgt]]; [done| |].
    + rewrite Hc1 in Hc2. injection Hc2 as ->. lia.
    + pose proof (Hup c2 c1 i2 i1 H2 H1 Hc2 Hc1 Hgt). lia.
  - by apply Hup.
Qed.

Lemma stoi_monotone_witness :
  (stoi (__init__ (str_of "hello") 4) !! 101%N = Some 0
   ∧ stoi (__init__ (str_of "hello") 4) !! 111%N = Some 3)
  ∧ ((101 < 111)%N ↔ 0 < 3).
Proof.
  assert (H1 : stoi (__init__ (str_of "hello") 4) !! 101%N = Some 0)
    by (vm_compute; reflexivity).
  assert (H2 : stoi (__init__ (str_of "hello") 4) !! 111%N = Some 3)
    by (vm_compute; reflexivity).
  split; [by split|].
  exact (stoi_monotone (str_of "hello") 4 101%N 111%N 0 3 H1 H2).
Defined.



(** X8.  The vocabulary is never larger than the corpus, and it is empty
    exactly when the corpus is empty. *)
Theorem vocab_size_bounds (corpus : str) (bs : Z) :
  let ds := __init__ corpus bs in
  0 ≤ vocab_size ds ≤ len corpus
  ∧ (vocab_size ds = 0 ↔ corpus = []).
Proof.
  intros ds. unfold ds. rewrite vocab_size_init. unfold distinct, len.
  assert (Hle : (length (remove_dups corpus) ≤ length corpus)%nat).
  { apply submseteq_length, NoDup_submseteq; [apply NoDup_remove_dups|].
    intros c. by rewrite elem_of_remove_dups. }
  split; [lia|]. split.
  - intros Hzero. destruct corpus as [|c corpus']; [done|].
    assert (Hc : c ∈ remove_dups (c :: corpus'))
      by (apply elem_of_remove_dups, list_elem_of_here).
    destruct (remove_dups (c :: corpus')); [by apply elem_of_nil in Hc|].
    simpl in Hzero. lia.
  - by intros ->.
Qed.

(** ** Windows, further *)

(** What [__getitem__] returns on a dataset built by the constructor, at
    any index: the chunk always has an encoding. *)
Lemma getitem_any (corpus : str) (bs idx : Z) :
  ∃ dix, encoding_of (__init__ corpus bs)
           (slice corpus (Some idx) (Some (idx + bs + 1))) dix
         ∧ __getitem__ idx (__init__ corpus bs)
           = (inr (take (length dix - 1) dix, drop 1 dix), __init__ corpus bs).
Proof.
  destruct (chunk_encoding corpus bs idx) as [dix Henc].
  exists dix. split; [done|]. by apply getitem_run.
Qed.

(** An encoding is the image of the chunk under one function. *)
Lemma encoding_of_fmap (ds : t) (chunk : str) (dix : list Z) :
  encoding_of ds chunk dix → dix = (λ c, default 0 (stoi ds !! c)) <$> chunk.
Proof.
  induction 1 as [|c tok chunk dix Hc _ IH]; [done|].
  simpl. by rewrite Hc, IH.
Qed.

(** X9.  At every integer index, inside the announced range or not,
    [__getitem__] on a dataset built by the constructor returns instead of
    raising; the input and the target have the same length, contain only
    tokens of the vocabulary, and the target is the input shifted by one
    position. *)
Theorem getitem_any_index (corpus : str) (bs idx : Z) :
  let ds := __init__ corpus bs in
  ∃ x y, __getitem__ idx ds = (inr (x, y), ds)
         ∧ length x = length y
         ∧ Forall (in_vocab ds) x ∧ Forall (in_vocab ds) y
         ∧ drop 1 x = take (length y - 1) y.
Proof.
  intros ds. destruct (getitem_any corpus bs idx) as (dix & Henc & Hrun).
  exists (take (length dix - 1) dix), (drop 1 dix).
  pose proof (encoding_in_vocab corpus bs _ _ Henc) as Hvocab.
  split; [done|]. split; [rewrite length_take, length_drop; lia|].
  split; [by apply Forall_take|]. split; [by apply Forall_drop|].
  rewrite length_drop. apply skipn_firstn_comm.
Qed.

(** X10.  With a block size of at least one and a non-negative index, the
    input returned never has more than [block_size] tokens, and it has
    exactly [block_size] tokens if and only if the index is below
    [__len__]: [__len__] announces exactly the non-negative indices whose
    window is complete. *)
Theorem getitem_full_window_iff (corpus : str) (bs idx : Z) :
  1 ≤ bs → 0 ≤ idx →
  let ds := __init__ corpus bs in
  ∃ x y n, outcome (__getitem__ idx) ds = inr (x, y)
           ∧ outcome __len__ ds = inr n
           ∧ Z.of_nat (length x) ≤ bs
           ∧ (Z.of_nat (length x) = bs ↔ idx < n).
Proof.
  intros Hbs Hidx ds. destruct (getitem_any corpus bs idx) as (dix & Henc & Hrun).
  exists (take (length dix - 1) dix), (drop 1 dix), (len corpus - bs).
  split; [unfold outcome, ds; by rewrite Hrun|]. split; [done|].
  apply encoding_of_length in Henc.
  pose proof (length_slice corpus (Some idx) (Some (idx + bs + 1))) as Hlen.
  pose proof (len_nonneg corpus) as Hn.
  rewrite <- Henc in Hlen. rewrite length_take.
  unfold slice_bound in Hlen.
  destruct (Z.ltb_spec idx 0), (Z.ltb_spec (idx + bs + 1) 0); lia.
Qed.

Lemma getitem_full_window_iff_witness :
  (1 ≤ 4 ∧ 0 ≤ 6)
  ∧ ∃ x y n, outcome (__getitem__ 6) (__init__ (str_of "hello world") 4) = inr (x, y)
             ∧ outcome __len__ (__init__ (str_of "hello world") 4) = inr n
             ∧ Z.of_nat (length x) ≤ 4
             ∧ (Z.of_nat (length x) = 4 ↔ 6 < n).
Proof.
  assert (Hbs : 1 ≤ 4) by lia. assert (Hidx : 0 ≤ 6) by lia.
  split; [by split|].
  exact (getitem_full_window_iff (str_of "hello world") 4 6 Hbs Hidx).
Defined.

(** X11.  A negative index whose window ends before the end of the corpus
    is counted from the end: with a non-negative block size and
    [-len(data) <= idx] and [idx + block_size + 1 < 0], the index
    [idx + len(data)] is a valid one and [__getitem__(idx)] behaves exactly
    as [__getitem__(idx + len(data))]. *)
Theorem getitem_negative_index (corpus : str) (bs idx : Z) :
  0 ≤ bs → - len corpus ≤ idx → idx + bs + 1 < 0 →
  let ds := __init__ corpus bs in
  0 ≤ idx + len corpus < len corpus - bs
  ∧ __getitem__ idx ds = __getitem__ (idx + len corpus) ds.
Proof.
  intros Hbs Hlo Hhi ds. split; [lia|].
  assert (Hslice : slice corpus (Some idx) (Some (idx + bs + 1))
                   = slice corpus (Some (idx + len corpus))
                       (Some (idx + len corpus + bs + 1))).
  { unfold slice, slice_bound.
    destruct (Z.ltb_spec idx 0); [|lia].
    destruct (Z.ltb_spec (idx + bs + 1) 0); [|lia].
    destruct (Z.ltb_spec (idx + len corpus) 0); [lia|].
    destruct (Z.ltb_spec (idx + len corpus + bs + 1) 0); [lia|].
    f_equal; [|f_equal]; lia. }
  unfold __getitem__, bind at 1 2 5 6, attr at 1 2 4 5. simpl.
  by rewrite Hslice.
Qed.

Lemma getitem_negative_index_witness :
  (0 ≤ 4 ∧ - len (str_of "hello world") ≤ -9 ∧ -9 + 4 + 1 < 0)
  ∧ __getitem__ (-9) (__init__ (str_of "hello world") 4)
    = __getitem__ (-9 + len (str_of "hello world")) (__init__ (str_of "hello world") 4).
Proof.
  assert (Hbs : 0 ≤ 4) by lia.
  assert (Hlo : - len (str_of "hello world") ≤ -9) by (vm_compute; congruence).
  assert (Hhi : -9 + 4 + 1 < 0) by lia.
  split; [by split|].
  exact (proj2 (getitem_negative_index (str_of "hello world") 4 (-9) Hbs Hlo Hhi)).
Defined.

(** X12.  Consecutive windows overlap: when [i] and [i + 1] are both
    valid indices, the target of window [i] is the input of window
    [i + 1]. *)
Theorem getitem_consecutive (corpus : str) (bs i : Z) :
  0 ≤ bs → 0 ≤ i → i + 1 < len corpus - bs →
  let ds := __init__ corpus bs in
  ∃ x y x' y', outcome (__getitem__ i) ds = inr (x, y)
               ∧ outcome (__getitem__ (i + 1)) ds = inr (x', y')
               ∧ y = x'.
Proof.
  intros Hbs Hi Hnext ds.
  destruct (getitem_any corpus bs i) as (dix & Henc & Hrun).
  destruct (getitem_any corpus bs (i + 1)) as (dix' & Henc' & Hrun').
  exists (take (length dix - 1) dix), (drop 1 dix),
         (take (length dix' - 1) dix'), (drop 1 dix').
  split; [unfold outcome, ds; by rewrite Hrun|].
  split; [unfold outcome, ds; by rewrite Hrun'|].
  pose proof (encoding_of_length _ _ _ Henc') as Hlen'.
  rewrite (encoding_of_fmap _ _ _ Henc) in *.
  rewrite (encoding_of_fmap _ _ _ Henc') in *.
  replace (i + bs + 1) with (i + (bs + 1)) in * by lia.
  replace (i + 1 + bs + 1) with (i + 1 + (bs + 1)) in * by lia.
  rewrite length_slice_inside in Hlen' by lia.
  rewrite !slice_inside in * by lia.
  rewrite Hlen', <- fmap_drop, <- fmap_take. f_equal.
  rewrite skipn_firstn_comm, drop_drop, take_take.
  replace (Z.to_nat (i + 1)) with (Z.to_nat i + 1)%nat by lia.
  f_equal. lia.
Qed.

Lemma getitem_consecutive_witness :
  (0 ≤ 4 ∧ 0 ≤ 2 ∧ 2 + 1 < len (str_of "hello world") - 4)
  ∧ ∃ x y x' y',
      outcome (__getitem__ 2) (__init__ (str_of "hello world") 4) = inr (x, y)
      ∧ outcome (__getitem__ (2 + 1)) (__init__ (str_of "hello world") 4) = inr (x', y')
      ∧ y = x'.
Proof.
  assert (Hbs : 0 ≤ 4) by lia. assert (Hi : 0 ≤ 2) by lia.
  assert (Hnext : 2 + 1 < len (str_of "hello world") - 4) by (vm_compute; congruence).
  split; [by split|].
  exact (getitem_consecutive (str_of "hello world") 4 2 Hbs Hi Hnext).
Defined.

(** X13.  Decoding a window gives the text back: at every index, [itos]
    decodes the input to the chunk [data[idx : idx + block_size + 1]]
    without its last character and the target to the chunk without its
    first character. *)
Theorem getitem_then_decode (corpus : str) (bs idx : Z) :
  let ds := __init__ corpus bs in
  let chunk := slice corpus (Some idx) (Some (idx + bs + 1)) in
  ∃ x y, outcome (__getitem__ idx) ds = inr (x, y)
         ∧ decode x ds = (inr (slice chunk None (Some (-1))), ds)
         ∧ decode y ds = (inr (slice chunk (Some 1) None), ds).
Proof.
  intros ds chunk. destruct (getitem_any corpus bs idx) as (dix & Henc & Hrun).
  exists (take (length dix - 1) dix), (drop 1 dix).
  split; [unfold outcome, ds; by rewrite Hrun|].
  pose proof (encoding_of_length _ _ _ Henc) as Hlen.
  apply encoding_decoding in Henc. fold chunk in Henc, Hlen.
  rewrite slice_init, slice_tail, <- Hlen.
  split; apply decode_run; [by apply Forall2_take|by apply Forall2_drop].
Qed.

(** X14.  An index at or after the last character of the corpus does not
    raise an index error: the slice is empty or a single character, and
    [__getitem__] returns two empty sequences. *)
Theorem getitem_at_the_end (corpus : str) (bs idx : Z) :
  0 ≤ idx → len corpus - 1 ≤ idx →
  let ds := __init__ corpus bs in
  __getitem__ idx ds = (inr ([], []), ds).
Proof.
  intros Hidx Hend ds. destruct (getitem_any corpus bs idx) as (dix & Henc & Hrun).
  fold ds in Hrun. rewrite Hrun.
  apply encoding_of_length in Henc.
  pose proof (length_slice corpus (Some idx) (Some (idx + bs + 1))) as Hlen.
  pose proof (len_nonneg corpus) as Hn.
  rewrite <- Henc in Hlen. unfold slice_bound in Hlen.
  assert (Hshort : (length dix ≤ 1)%nat).
  { destruct (Z.ltb_spec idx 0), (Z.ltb_spec (idx + bs + 1) 0); lia. }
  destruct dix as [|tok [|tok' dix]]; [done|done|simpl in Hshort; lia].
Qed.

Lemma getitem_at_the_end_witness :
  (0 ≤ 4 ∧ len (str_of "hello") - 1 ≤ 4)
  ∧ __getitem__ 4 (__init__ (str_of "hello") 4)
    = (inr ([], []), __init__ (str_of "hello") 4).
Proof.
  assert (Hidx : 0 ≤ 4) by lia.
  assert (Hend : len (str_of "hello") - 1 ≤ 4) by (vm_compute; congruence).
  split; [by split|].
  exact (getitem_at_the_end (str_of "hello") 4 4 Hidx Hend).
Defined.

(** X15.  Every character of the corpus except the first is a training
    target: with [1 <= block_size < len(data)], each position [p >= 1] of
    the corpus is predicted by some valid window, whose target holds the
    token of [data[p]]. *)
Theorem every_position_is_a_target (corpus : str) (bs : Z) (p : nat) (c : char) :
  1 ≤ bs → bs < len corpus → (1 ≤ p)%nat → corpus !! p = Some c →
  let ds := __init__ corpus bs in
  ∃ i k x y tok, 0 ≤ i < len corpus - bs
                 ∧ outcome (__getitem__ i) ds = inr (x, y)
                 ∧ (Z.to_nat i + k + 1)%nat = p
                 ∧ y !! k = Some tok
                 ∧ stoi ds !! c = Some tok.
Proof.
  intros Hbs Hlong Hp Hc ds.
  pose proof (lookup_lt_Some _ _ _ Hc) as Hlt. unfold len in Hlong.
  set (i := Z.min (Z.of_nat p - 1) (Z.of_nat (length corpus) - bs - 1)).
  assert (Hi : 0 ≤ i < len corpus - bs) by (unfold len; lia).
  destruct (getitem_any corpus bs i) as (dix & Henc & Hrun).
  assert (Hstoi : is_Some (stoi ds !! c)).
  { apply stoi_is_Some. by eapply list_elem_of_lookup_2. }
  destruct Hstoi as [tok Htok].
  exists i, (p - 1 - Z.to_nat i)%nat, (take (length dix - 1) dix), (drop 1 dix), tok.
  split; [done|]. split; [unfold outcome, ds; by rewrite Hrun|].
  split; [lia|]. split; [|done].
  rewrite (encoding_of_fmap _ _ _ Henc).
  replace (i + bs + 1) with (i + (bs + 1)) by lia.
  unfold len in Hi.
  rewrite slice_inside by (unfold len; lia).
  rewrite lookup_drop, list_lookup_fmap, lookup_take_lt, lookup_drop by lia.
  replace (Z.to_nat i + (1 + (p - 1 - Z.to_nat i)))%nat with p by lia.
  transitivity ((λ c0 : char, default 0 (stoi ds !! c0)) <$> Some c).
  - f_equal. exact Hc.
  - assert (Hd : default 0 (stoi ds !! c) = tok) by (by rewrite Htok).
    exact (f_equal Some Hd).
Qed.

Lemma every_position_is_a_target_witness :
  (1 ≤ 4 ∧ 4 < len (str_of "hello world") ∧ (1 ≤ 10)%nat
   ∧ str_of "hello world" !! 10%nat = Some 100%N)
  ∧ ∃ i k x y tok,
      0 ≤ i < len (str_of "hello world") - 4
      ∧ outcome (__getitem__ i) (__init__ (str_of "hello world") 4) = inr (x, y)
      ∧ (Z.to_nat i + k + 1)%nat = 10%nat
      ∧ y !! k = Some tok
      ∧ stoi (__init__ (str_of "hello world") 4) !! 100%N = Some tok.
Proof.
  assert (Hbs : 1 ≤ 4) by lia.
  assert (Hlong : 4 < len (str_of "hello world")) by (vm_compute; congruence).
  assert (Hp : (1 ≤ 10)%nat) by lia.
  assert (Hc : str_of "hello world" !! 10%nat = Some 100%N) by reflexivity.
  split; [by repeat split|].
  exact (every_position_is_a_target (str_of "hello world") 4 10 100%N Hbs Hlong Hp Hc).
Defined.

(** ** The trainer cell *)

(** X16.  When the text is shorter than [block_size], the built-in [len]
    refuses the negative result of [__len__]: [len(train_dataset)] raises
    [ValueError], and so does the expression that computes
    [final_tokens]. *)
Theorem len_builtin_short_corpus (maxsize : Z) (text : str) (block_size : Z) :
  len text < block_size →
  let train_dataset := __init__ text block_size in
  builtin_len maxsize __len__ train_dataset = (inl ValueError, train_dataset)
  ∧ final_tokens maxsize text block_size = inl ValueError.
Proof.
  intros Hshort train_dataset.
  assert (Hlen : builtin_len maxsize __len__ train_dataset
                 = (inl ValueError, train_dataset)).
  { unfold builtin_len.
    change (__len__ train_dataset)
      with (@inr exn Z (len text - block_size), train_dataset).
    cbv beta iota.
    destruct (Z.ltb_spec (len text - block_size) 0); [done|lia]. }
  split; [done|]. unfold final_tokens. fold train_dataset. by rewrite Hlen.
Qed.

Lemma len_builtin_short_corpus_witness :
  len (str_of "hi") < 4
  ∧ final_tokens (2 ^ 63 - 1) (str_of "hi") 4 = inl ValueError.
Proof.
  assert (Hshort : len (str_of "hi") < 4) by (vm_compute; congruence).
  split; [exact Hshort|].
  exact (proj2 (len_builtin_short_corpus (2 ^ 63 - 1) (str_of "hi") 4 Hshort)).
Defined.

(** In the other case, when the text is at least [block_size] long and its
    length does not exceed [sys.maxsize], [len(train_dataset)] returns and
    [final_tokens] is twice the number of windows times the block size,
    which is not negative. *)
Theorem final_tokens_value (maxsize : Z) (text : str) (block_size : Z) :
  0 ≤ block_size ≤ len text → len text ≤ maxsize →
  final_tokens maxsize text block_size
  = inr (2 * (len text - block_size) * block_size)
  ∧ 0 ≤ 2 * (len text - block_size) * block_size.
Proof.
  intros Hbs Hmax. split; [|nia].
  unfold final_tokens, builtin_len.
  change (__len__ (__init__ text block_size))
    with (@inr exn Z (len text - block_size), __init__ text block_size).
  cbv beta iota.
  destruct (Z.ltb_spec (len text - block_size) 0); [lia|].
  destruct (Z.ltb_spec maxsize (len text - block_size)); [lia|done].
Qed.

Lemma final_tokens_value_witness :
  (0 ≤ 4 ≤ len (str_of "hello world") ∧ len (str_of "hello world") ≤ 2 ^ 63 - 1)
  ∧ final_tokens (2 ^ 63 - 1) (str_of "hello world") 4
    = inr (2 * (len (str_of "hello world") - 4) * 4).
Proof.
  assert (Hbs : 0 ≤ 4 ≤ len (str_of "hello world")) by (vm_compute; split; congruence).
  assert (Hmax : len (str_of "hello world") ≤ 2 ^ 63 - 1) by (vm_compute; congruence).
  split; [by split|].
  exact (proj1 (final_tokens_value (2 ^ 63 - 1) (str_of "hello world") 4 Hbs Hmax)).
Defined.

